(** * Mastermind with the Bernstein-Vazirani algorithm

    A shallow embedding of the classes of [QuantumAssignment.ipynb]
    ([codemaker], [QuantumEncoder], [QuantumGuesser], the setters and
    guessers, [Game]) and the properties of the game they implement.

    Python strings are [string]s, Python integers are [Z], and the code
    makers, which are mutated in place, live in a store.  What the notebook
    calls and does not define is either a parameter (the system shell, the
    builtin [int], the backend that runs a job) or, for the ideal run of a
    circuit and the decoding of its counts, a model of its own, marked as
    such. *)

From Stdlib Require Import ZArith Lia Ascii.
From stdpp Require Import base option list strings gmap pretty.

Local Open Scope Z_scope.

(** ** Python values, exceptions and results *)

(** The exceptions that the modelled code can raise. *)
Inductive exn : Type :=
  | IndexError          (* [s[i]] with [i] out of range *)
  | NameError           (* an unbound global name *)
  | EOFError            (* [input()] with nothing left to read *)
  | ValueError          (* [int(s)] on a malformed literal *)
  | UnboundLocalError   (* a local variable read before any assignment *)
  | QiskitError         (* raised by the circuit library *)
  | LengthMismatchError (* named by the specification; nothing below raises it *)
  | InvalidProgramError (* named by the specification; nothing below raises it *)
  | BackendError (code : nat). (* a failure reported by the backend *)

Global Instance exn_eq_dec : EqDecision exn.
Proof. solve_decision. Defined.

(** [inl e]: the call raised [e]; [inr v]: it returned [v]. *)
Definition result (A : Type) : Type := exn + A.

Definition rbind {A B} (r : result A) (k : A -> result B) : result B :=
  match r with
  | inl e => inl e
  | inr a => k a
  end.

(** A sequence that supports [len] and indexing by a non-negative integer,
    as [codemaker.setCode] expects: a [str], whose items are its
    characters, or a [list] of [str], which is what [HumanSetter] passes. *)
Inductive pyseq : Type :=
  | PyStr (s : string)
  | PyList (l : list string).

Definition py_len (c : pyseq) : nat :=
  match c with
  | PyStr s => String.length s
  | PyList l => length l
  end.

(** [s[i]] on a [str] is the one-character string at [i]. *)
Definition str_getitem (s : string) (i : nat) : result string :=
  match String.get i s with
  | Some ch => inr (String ch "")
  | None => inl IndexError
  end.

Definition py_getitem (c : pyseq) (i : nat) : result string :=
  match c with
  | PyStr s => str_getitem s i
  | PyList l =>
      match l !! i with
      | Some x => inr x
      | None => inl IndexError
      end
  end.

(** Truth value of what [check] returns as its hint: a [bool], or the list of
    output lines of a shell command. *)
Inductive pyval : Type :=
  | PyBool (b : bool)
  | SList (lines : list string).

Definition truthy (v : pyval) : bool :=
  match v with
  | PyBool b => b
  | SList lines => negb (Nat.eqb (length lines) 0)
  end.

(** ** [codemaker] *)

Module Codemaker.

Record codemaker : Type := { code : string }.

(** [__init__] *)
Definition init : codemaker := {| code := "" |}.

(** The loop of [setCode]: [for i in range(len(code)): self.code = self.code + code[i]],
    over the remaining indices. *)
Fixpoint setCode_loop (arg : pyseq) (idx : list nat) (self : codemaker)
  : result codemaker :=
  match idx with
  | [] => inr self
  | i :: rest =>
      match py_getitem arg i with
      | inl e => inl e
      | inr x => setCode_loop arg rest {| code := code self +:+ x |}
      end
  end.

Definition setCode (self : codemaker) (arg : pyseq) : result codemaker :=
  setCode_loop arg (seq 0 (py_len arg)) {| code := "" |}.

(** [getCode] returns the stored code; the object is returned with it so
    that the absence of a mutation is a statement about this function. *)
Definition getCode (self : codemaker) : string * codemaker :=
  (code self, self).

End Codemaker.

(** ** Circuits

    A [QuantumCircuit] of the circuit library, as the data the notebook
    builds: the sizes of the two registers and the instructions in program
    order.  The methods below append instructions the way the library's
    methods of the same name do; the library's argument checks (a qubit
    index out of range, two ranges of different sizes) are not part of the
    model, and the circuits that [encode] and [guess] build from a string
    pass them. *)

Inductive instr : Type :=
  | X (q : nat)
  | H (q : nat)
  | CX (control target : nat)
  | Barrier
  | Measure (q c : nat).

Global Instance instr_eq_dec : EqDecision instr.
Proof. solve_decision. Defined.

Record QuantumCircuit : Type := {
  num_qubits : nat;
  num_clbits : nat;
  data : list instr
}.

Global Instance QuantumCircuit_eq_dec : EqDecision QuantumCircuit.
Proof. solve_decision. Defined.

Module Circuit.

(** [QuantumCircuit(nq, nc)] *)
Definition new (nq nc : nat) : QuantumCircuit :=
  {| num_qubits := nq; num_clbits := nc; data := [] |}.

Definition append_all (qc : QuantumCircuit) (l : list instr) : QuantumCircuit :=
  {| num_qubits := num_qubits qc; num_clbits := num_clbits qc;
     data := data qc ++ l |}.

(** [qc.x(q)], [qc.cx(c, t)], [qc.barrier()] *)
Definition x (qc : QuantumCircuit) (q : nat) := append_all qc [X q].

Definition cx (qc : QuantumCircuit) (c t : nat) := append_all qc [CX c t].

Definition barrier (qc : QuantumCircuit) := append_all qc [Barrier].

(** [qc.h(range(n))]: one instruction per qubit, in increasing order. *)
Definition h_range (qc : QuantumCircuit) (n : nat) :=
  append_all qc (H <$> seq 0 n).

(** [qc.measure(range(nq), range(nc))]: qubit [i] into classical bit [i]. *)
Definition measure_ranges (qc : QuantumCircuit) (nq nc : nat) :=
  append_all qc (zip_with Measure (seq 0 nq) (seq 0 nc)).

(** [qc.compose(other)]: a new circuit, [other]'s instructions after
    [qc]'s, on the same wires. *)
Definition compose (qc other : QuantumCircuit) := append_all qc (data other).

End Circuit.

(** [enumerate(l)], counting from [i]. *)
Fixpoint enumerate_from {A} (i : nat) (l : list A) : list (nat * A) :=
  match l with
  | [] => []
  | a :: l' => (i, a) :: enumerate_from (S i) l'
  end.

Definition enumerate {A} (l : list A) : list (nat * A) := enumerate_from 0 l.

Definition chars (s : string) : list ascii := String.list_ascii_of_string s.

(** [value == '1'] *)
Definition is_one (value : ascii) : bool := Ascii.eqb value "1".

(** ** [QuantumEncoder] *)

Module QuantumEncoder.

Record QuantumEncoder : Type := { code : string }.

Definition init : QuantumEncoder := {| code := "" |}.

(** The loop of [encode] over [enumerate(reversed(code))]. *)
Fixpoint encode_loop (items : list (nat * ascii)) (len : nat)
    (qc : QuantumCircuit) : QuantumCircuit :=
  match items with
  | [] => qc
  | (i, value) :: rest =>
      encode_loop rest len (if is_one value then Circuit.cx qc i len else qc)
  end.

(** [encode] stores the code in the encoder and returns the circuit. *)
Definition encode (self : QuantumEncoder) (code : string)
  : QuantumCircuit * QuantumEncoder :=
  let self := {| code := code |} in
  let length := String.length code in
  let qc := Circuit.new (length + 1) length in
  (encode_loop (enumerate (reverse (chars code))) (String.length code) qc,
   self).

Section Shell.

(** In the notebook, [odd = !odd] is a shell assignment: the right-hand
    side runs the command [odd] in the system shell and evaluates to
    the list of the lines it printed (as plain Python the line would not
    parse, and the recorded outputs of the notebook show that the cell
    was run and that [check] returned).  [getoutput cmd] is that list. *)
Variable getoutput : string -> list string.

(** The loop of [check] over [enumerate(self.code)]; [input[i]] is
    evaluated only when [value == '1'], as [and] does. *)
Fixpoint check_loop (items : list (nat * ascii)) (input : string)
    (odd : pyval) : result pyval :=
  match items with
  | [] => inr odd
  | (i, value) :: rest =>
      if is_one value then
        match str_getitem input i with
        | inl e => inl e
        | inr ch =>
            if String.eqb ch "1"
            then check_loop rest input (SList (getoutput "odd"))
            else check_loop rest input odd
        end
      else check_loop rest input odd
  end.

(** [check] returns the hint and whether the guess is the code. *)
Definition check (self : QuantumEncoder) (input : string)
  : result (pyval * bool) :=
  rbind (check_loop (enumerate (chars (code self))) input (PyBool false))
    (fun odd => inr (odd, String.eqb (code self) input)).

End Shell.

End QuantumEncoder.

(** A shell in which [odd] is not a command: it prints one line saying so. *)
Definition sh_not_found (cmd : string) : list string :=
  ["/bin/sh: 1: " +:+ cmd +:+ ": not found"].

(** The number of positions at which both strings have a ['1']. *)
Fixpoint overlap (s g : string) : nat :=
  match s, g with
  | String a s', String b g' =>
      ((if is_one a && is_one b then 1 else 0) + overlap s' g')%nat
  | _, _ => 0%nat
  end.

(** A string of ['0'] and ['1'] only. *)
Fixpoint is_bitstring (s : string) : bool :=
  match s with
  | "" => true
  | String a s' => (Ascii.eqb a "0" || Ascii.eqb a "1") && is_bitstring s'
  end.

(** ** Classical run of a circuit *)

(** Modelled from the spec: what the instructions of the circuit library do is not
    part of the notebook.  On an assignment of bits to the qubits, [X]
    flips a bit and [CX], the controlled XOR, adds the control to the target
    modulo 2; [H] has no classical reading, and an index outside the
    assignment has none either. *)
Definition apply_bits (i : instr) (bits : list bool) : option (list bool) :=
  match i with
  | X q =>
      match bits !! q with
      | Some b => Some (<[q := negb b]> bits)
      | None => None
      end
  | CX c t =>
      match bits !! c, bits !! t with
      | Some bc, Some bt =>
          if decide (c = t) then None else Some (<[t := xorb bt bc]> bits)
      | _, _ => None
      end
  | Barrier => Some bits
  | Measure _ _ => Some bits
  | H _ => None
  end.

(** The instructions in program order, as long as each has a classical
    reading. *)
Fixpoint run_bits (l : list instr) (bits : list bool) : option (list bool) :=
  match l with
  | [] => Some bits
  | i :: l' =>
      match apply_bits i bits with
      | Some bits' => run_bits l' bits'
      | None => None
      end
  end.

(** ** The ideal simulator

    The State Simulator ([execute] on a simulator backend of the circuit
    library) is not part of the notebook.  An ideal, noiseless run is
    modelled exactly, on the states of the qubits. *)

(** Modelled from the spec: the state of the State Simulator.  A state of
    [n] qubits is the binary tree of depth [n] of its amplitudes, qubit 0 at
    the root; the amplitudes are integers, the factor [1/sqrt 2] of every
    [H] being left out, which changes neither which outcomes have
    probability zero nor the ratios of the probabilities. *)
Inductive qstate : Type :=
  | Amp (a : Z)
  | Qubit (zero one : qstate).

Global Instance qstate_eq_dec : EqDecision qstate.
Proof. solve_decision. Defined.

(** Every amplitude multiplied by [k]; the sum and the difference of two
    states, amplitude by amplitude. *)
Fixpoint qscale (k : Z) (st : qstate) : qstate :=
  match st with
  | Amp a => Amp (k * a)
  | Qubit z o => Qubit (qscale k z) (qscale k o)
  end.

Fixpoint qadd (s1 s2 : qstate) : qstate :=
  match s1, s2 with
  | Amp a, Amp b => Amp (a + b)
  | Qubit z1 o1, Qubit z2 o2 => Qubit (qadd z1 z2) (qadd o1 o2)
  | _, _ => s1
  end.

Fixpoint qsub (s1 s2 : qstate) : qstate :=
  match s1, s2 with
  | Amp a, Amp b => Amp (a - b)
  | Qubit z1 o1, Qubit z2 o2 => Qubit (qsub z1 z2) (qsub o1 o2)
  | _, _ => s1
  end.

(** The state in which every qubit is 0. *)
Fixpoint ket0 (n : nat) : qstate :=
  match n with
  | O => Amp 1
  | S n' => Qubit (ket0 n') (qscale 0 (ket0 n'))
  end.

(** Modelled from the spec: the flip of qubit [q] exchanges the amplitudes
    of the basis states that differ in that qubit. *)
Fixpoint apply_X (q : nat) (st : qstate) : qstate :=
  match st with
  | Amp a => Amp a
  | Qubit z o =>
      match q with
      | O => Qubit o z
      | S q' => Qubit (apply_X q' z) (apply_X q' o)
      end
  end.

(** Modelled from the spec: the uniform-superposition (Hadamard) transform
    of qubit [q]: sum and difference of the amplitudes of the basis states
    that differ in that qubit. *)
Fixpoint apply_H (q : nat) (st : qstate) : qstate :=
  match st with
  | Amp a => Amp a
  | Qubit z o =>
      match q with
      | O => Qubit (qadd z o) (qsub z o)
      | S q' => Qubit (apply_H q' z) (apply_H q' o)
      end
  end.

(** [select c s0 s1]: the amplitudes of [s0] where qubit [c] is 0 and those
    of [s1] where it is 1. *)
Fixpoint select (c : nat) (s0 s1 : qstate) : qstate :=
  match s0, s1 with
  | Qubit z0 o0, Qubit z1 o1 =>
      match c with
      | O => Qubit z0 o1
      | S c' => Qubit (select c' z0 z1) (select c' o0 o1)
      end
  | _, _ => s0
  end.

(** Modelled from the spec: the controlled XOR flips qubit [t] in the basis
    states where qubit [c] is 1. *)
Fixpoint apply_CX (c t : nat) (st : qstate) : qstate :=
  match st with
  | Amp a => Amp a
  | Qubit z o =>
      match c, t with
      | O, O => Qubit z o
      | O, S t' => Qubit z (apply_X t' o)
      | S c', O => Qubit (select c' z o) (select c' o z)
      | S c', S t' => Qubit (apply_CX c' t' z) (apply_CX c' t' o)
      end
  end.

(** Modelled from the spec: one instruction on the state. *)
Definition apply_instr (st : qstate) (i : instr) : qstate :=
  match i with
  | X q => apply_X q st
  | H q => apply_H q st
  | CX c t => apply_CX c t st
  | Barrier => st
  | Measure _ _ => st
  end.

(** Modelled from the spec: the state at the end of the circuit, from all
    qubits at 0.  The measurements of the circuits built here come last, so
    the state is not changed by them. *)
Definition final_state (qc : QuantumCircuit) : qstate :=
  foldl apply_instr (ket0 (num_qubits qc)) (data qc).

(** The basis states of non-zero amplitude, each as the list of its bits,
    qubit 0 first. *)
Fixpoint support (st : qstate) : list (list bool) :=
  match st with
  | Amp a => if decide (a = 0) then [] else [[]]
  | Qubit z o => (cons false <$> support z) ++ (cons true <$> support o)
  end.

(** Modelled from the spec: the classical register after a measurement,
    when the qubits are found in the basis state [bits]. *)
Definition measure_bit (bits : list bool) (creg : list bool) (i : instr)
  : list bool :=
  match i with
  | Measure q c => <[c := default false (bits !! q)]> creg
  | _ => creg
  end.

(** The character of a bit. *)
Definition bit_char (b : bool) : ascii := if b then "1"%char else "0"%char.

(** Modelled from the spec: the key under which the counts report a
    classical register, one character per bit, the last bit first. *)
Definition bitstring_of (creg : list bool) : string :=
  String.string_of_list_ascii (bit_char <$> reverse creg).

(** Modelled from the spec: the key that a shot reports when the qubits are
    found in the basis state [bits]; the classical bits start at 0. *)
Definition readout (qc : QuantumCircuit) (bits : list bool) : string :=
  bitstring_of (foldl (measure_bit bits) (replicate (num_clbits qc) false) (data qc)).

(** Modelled from the spec: the outcomes that one shot has a non-zero
    probability to give, those read from a basis state of non-zero
    amplitude. *)
Definition outcomes (qc : QuantumCircuit) : list string :=
  readout qc <$> support (final_state qc).

(** The frequency table of a job: outcome to number of shots. *)
Abbreviation Counts := (gmap string Z).

(** The number of shots that a table accounts for. *)
Definition total_shots (counts : Counts) : Z :=
  map_fold (fun _ n acc => n + acc) 0 counts.

(** Modelled from the spec: what an ideal simulator may answer to a job.
    Every outcome it reports has a non-zero probability, was seen at least
    once, and the frequencies add up to the number of shots. *)
Definition ideal_counts (qc : QuantumCircuit) (shots : Z) (counts : Counts)
  : Prop :=
  (forall y n, counts !! y = Some n -> 0 < n /\ y ∈ outcomes qc)
  /\ total_shots counts = shots.

(** The greatest frequency of a table that has the entry [kv] and the
    entries [rest]. *)
Definition max_value (kv : string * Z) (rest : list (string * Z)) : Z :=
  foldl (fun m x => Z.max m x.2) kv.2 rest.

(** Modelled from the spec: [most_frequent] of the circuit library's counts
    is not part of the notebook.  The most frequent outcome is adopted.
    For a table where several outcomes share the greatest frequency, where
    the source fixes nothing, the model follows the library that the
    notebook calls: such a table has no most frequent outcome, no more than
    an empty table has, and the call raises. *)
Definition most_frequent (counts : Counts) : result string :=
  match map_to_list counts with
  | [] => inl QiskitError
  | kv :: rest =>
      match filter (fun x => x.2 = max_value kv rest) (kv :: rest) with
      | [x] => inr x.1
      | _ => inl QiskitError
      end
  end.

(** ** The world outside the objects *)

(** What the notebook relies on and does not define: the system shell, the
    builtin [int], and the backend that runs the [k]-th job submitted to it
    on a circuit with a number of shots. *)
Record environment : Type := {
  env_getoutput : string -> list string;
  env_int : string -> result Z;
  env_execute : nat -> QuantumCircuit -> Z -> result Counts
}.

Inductive setter_class : Type :=
  | HumanSetter
  | QuantumSetter (shots : Z).

Inductive guesser : Type :=
  | HumanGuesser
  | QuantumGuesser (shots : Z).

(** The state that calls read and change: the lines still to be typed, the
    lines printed so far, the number of jobs submitted to the backend, the
    store of the code makers, and the object that the notebook's global
    name [p1] is bound to, if any. *)
Record world : Type := {
  stdin : list string;
  stdout : list string;
  jobs : nat;
  heap : gmap nat (setter_class * Codemaker.codemaker);
  global_p1 : option nat
}.

Definition set_stdin (w : world) (l : list string) : world :=
  {| stdin := l; stdout := stdout w; jobs := jobs w; heap := heap w;
     global_p1 := global_p1 w |}.

Definition set_stdout (w : world) (l : list string) : world :=
  {| stdin := stdin w; stdout := l; jobs := jobs w; heap := heap w;
     global_p1 := global_p1 w |}.

Definition set_jobs (w : world) (n : nat) : world :=
  {| stdin := stdin w; stdout := stdout w; jobs := n; heap := heap w;
     global_p1 := global_p1 w |}.

Definition set_heap (w : world)
    (h : gmap nat (setter_class * Codemaker.codemaker)) : world :=
  {| stdin := stdin w; stdout := stdout w; jobs := jobs w; heap := h;
     global_p1 := global_p1 w |}.

(** A call in a world: its result, or the exception it raised, and the
    world it leaves. *)
Definition M (A : Type) : Type := world -> result A * world.

Definition ret {A} (a : A) : M A := fun w => (inr a, w).

Definition raise {A} (e : exn) : M A := fun w => (inl e, w).

Definition bind {A B} (m : M A) (k : A -> M B) : M B :=
  fun w =>
    match m w with
    | (inl e, w') => (inl e, w')
    | (inr a, w') => k a w'
    end.

Definition lift {A} (r : result A) : M A := fun w => (r, w).

Notation "'do' x <- m ; k" := (bind m (fun x => k))
  (at level 10, x name, m at level 100, k at level 200).
Notation "'do' ' p <- m ; k" := (bind m (fun x => match x with p => k end))
  (at level 10, p pattern, m at level 100, k at level 200).
Notation "'run' m ; k" := (bind m (fun _ => k))
  (at level 10, m at level 100, k at level 200).

(** [print(line)] *)
Definition print (line : string) : M unit :=
  fun w => (inr tt, set_stdout w (stdout w ++ [line])).

(** [input(prompt)]: the next line typed. *)
Definition input (prompt : string) : M string :=
  fun w =>
    match stdin w with
    | [] => (inl EOFError, w)
    | l :: rest => (inr l, set_stdin w rest)
    end.

(** [clear_output()] *)
Definition clear_output : M unit := fun w => (inr tt, set_stdout w []).

(** [execute(qc, backend, shots).result().get_counts()] *)
Definition execute (env : environment) (qc : QuantumCircuit) (shots : Z)
  : M Counts :=
  fun w => (env_execute env (jobs w) qc shots, set_jobs w (S (jobs w))).

(** The object a reference names; every reference names one. *)
Definition deref (p : nat) : M (setter_class * Codemaker.codemaker) :=
  fun w => (inr (default (HumanSetter, Codemaker.init) (heap w !! p)), w).

Definition store (p : nat) (o : setter_class * Codemaker.codemaker) : M unit :=
  fun w => (inr tt, set_heap w (<[p := o]> (heap w))).

(** ** The code makers of the game *)

(** [getCode] on the object that [p] names. *)
Definition getCode (p : nat) : M string :=
  do o <- deref p;
  ret (Codemaker.getCode o.2).1.

(** The loop of [HumanSetter.setCode]: one line read and appended for each
    of the [n] remaining rounds. *)
Fixpoint read_bits (n : nat) (code : list string) : M (list string) :=
  match n with
  | O => ret code
  | S n' =>
      do line <- input "0/1? ";
      read_bits n' (code ++ [line])
  end.

Definition HumanSetter_setCode (p : nat) (length : Z) : M unit :=
  do code <- read_bits (Z.to_nat length) [];
  do o <- deref p;
  do self <- lift (Codemaker.setCode o.2 (PyList code));
  run store p (o.1, self);
  clear_output.

(** The circuit of [QuantumSetter.setCode]: a Hadamard transform on each of
    [length] qubits, and their measurement. *)
Definition random_program (length : nat) : QuantumCircuit :=
  let qc := Circuit.new length length in
  let qc := Circuit.h_range qc length in
  Circuit.measure_ranges qc length length.

(** A circuit has no register of negative size, and [h] is not applied to
    an empty range of qubits: the library refuses both, before any job is
    submitted. *)
Definition QuantumSetter_setCode (env : environment) (p : nat) (shots : Z)
    (length : Z) : M unit :=
  if decide (length < 1) then raise QiskitError
  else
    do counts <- execute env (random_program (Z.to_nat length)) shots;
    do c <- lift (most_frequent counts);
    do o <- deref p;
    store p (o.1, {| Codemaker.code := c |}).

(** [p.setCode(length)], by the class of the object. *)
Definition setCode (env : environment) (p : nat) (length : Z) : M unit :=
  do o <- deref p;
  match o.1 with
  | HumanSetter => HumanSetter_setCode p length
  | QuantumSetter shots => QuantumSetter_setCode env p shots length
  end.

(** ** The guessers *)

(** The loop of [HumanGuesser.guess]: lines are read until one has the
    asked length; with nothing read, [humanGuess] is unbound. *)
Fixpoint HumanGuesser_loop (length : nat) (lines : list string)
    (humanGuess : option string) (guessLen : nat)
  : result string * list string :=
  if decide (guessLen = length) then
    (match humanGuess with
     | Some g => inr g
     | None => inl UnboundLocalError
     end, lines)
  else
    match lines with
    | [] => (inl EOFError, [])
    | line :: rest =>
        HumanGuesser_loop length rest (Some line) (String.length line)
    end.

Definition HumanGuesser_guess (code : QuantumCircuit) : M string :=
  fun w =>
    let '(r, rest) := HumanGuesser_loop (num_clbits code) (stdin w) None 0 in
    (r, set_stdin w rest).

(** The circuit that [QuantumGuesser.guess] builds around the circuit it is
    given. *)
Definition guess_program (code : QuantumCircuit) : QuantumCircuit :=
  let qc := Circuit.new (num_qubits code) (num_clbits code) in
  let qc := Circuit.x qc (num_qubits code - 1) in
  let qc := Circuit.h_range qc (num_qubits code) in
  let qc := Circuit.barrier qc in
  let qc := Circuit.compose qc code in
  let qc := Circuit.barrier qc in
  let qc := Circuit.h_range qc (num_qubits code) in
  let qc := Circuit.barrier qc in
  Circuit.measure_ranges qc (num_qubits code - 1) (num_clbits code).

Definition QuantumGuesser_guess (env : environment) (shots : Z)
    (code : QuantumCircuit) : M string :=
  do counts <- execute env (guess_program code) shots;
  lift (most_frequent counts).

Definition guess (env : environment) (p2 : guesser) (code : QuantumCircuit)
  : M string :=
  match p2 with
  | HumanGuesser => HumanGuesser_guess code
  | QuantumGuesser shots => QuantumGuesser_guess env shots code
  end.

(** ** [Game] *)

Record Game : Type := {
  p1 : nat;
  p2 : guesser;
  encoder : QuantumEncoder.QuantumEncoder
}.

Definition newline : string := String "010"%char "".

Definition attempt_line (attempts : Z) : string :=
  "attempt: " +:+ pretty attempts.

Definition hint_line (hint : pyval) : string :=
  "number of correct black guesses is "
    +:+ (if truthy hint then "odd" else "even") +:+ newline.

Definition found_line (code : string) : string :=
  "you found it, the code was: " +:+ code.

(** [play] up to the loop: the code is set and encoded, and the first guess
    is made and checked. *)
Definition play_start (env : environment) (self : Game)
  : M (QuantumEncoder.QuantumEncoder * QuantumCircuit * pyval * bool) :=
  do line <- input "how long of a string? (numerical value): ";
  do length <- lift (env_int env line);
  run setCode env (p1 self) length;
  do secret <- getCode (p1 self);
  let '(code, enc) := QuantumEncoder.encode (encoder self) secret in
  run print (attempt_line 1);
  do g <- guess env (p2 self) code;
  do hc <- lift (QuantumEncoder.check (env_getoutput env) enc g);
  ret (enc, code, hc.1, hc.2).

(** One round of the loop of [play], entered after a guess that was not
    the code. *)
Definition play_round (env : environment) (self : Game)
    (enc : QuantumEncoder.QuantumEncoder) (code : QuantumCircuit)
    (attempts : Z) (hint : pyval) : M (Z * pyval * bool) :=
  run print "incorrect guess";
  run print (hint_line hint);
  let attempts := attempts + 1 in
  run print (attempt_line attempts);
  do g <- guess env (p2 self) code;
  do hc <- lift (QuantumEncoder.check (env_getoutput env) enc g);
  ret (attempts, hc.1, hc.2).

(** The loop of [play], for at most [fuel] rounds: [None] when the loop is
    still running after them; otherwise the attempt counter at the exit. *)
Fixpoint play_loop (env : environment) (fuel : nat) (self : Game)
    (enc : QuantumEncoder.QuantumEncoder) (code : QuantumCircuit)
    (attempts : Z) (hint : pyval) (correct : bool) (w : world)
  : option (result Z * world) :=
  if correct then Some (inr attempts, w)
  else
    match fuel with
    | O => None
    | S fuel' =>
        match play_round env self enc code attempts hint w with
        | (inl e, w') => Some (inl e, w')
        | (inr (attempts', hint', correct'), w') =>
            play_loop env fuel' self enc code attempts' hint' correct' w'
        end
    end.

(** The last statement of [play] prints the code of the object bound to
    the global name [p1]. *)
Definition play_end : M unit :=
  fun w =>
    match global_p1 w with
    | None => (inl NameError, w)
    | Some g => (do secret <- getCode g; print (found_line secret)) w
    end.

Definition play (env : environment) (fuel : nat) (self : Game) (w : world)
  : option (result unit * world) :=
  match play_start env self w with
  | (inl e, w1) => Some (inl e, w1)
  | (inr (enc, code, hint, correct), w1) =>
      match play_loop env fuel self enc code 1 hint correct w1 with
      | None => None
      | Some (inl e, w2) => Some (inl e, w2)
      | Some (inr _, w2) => Some (play_end w2)
      end
  end.

(** ** An environment to run the game in

    A shell without a command [odd], [int] on plain decimal numerals, and an
    ideal simulator that reports all the shots on the first outcome of
    non-zero probability. *)

Fixpoint digits_value (s : string) (acc : Z) : result Z :=
  match s with
  | "" => inr acc
  | String c s' =>
      match Ascii.is_nat c with
      | Some d => digits_value s' (10 * acc + Z.of_nat d)
      | None => inl ValueError
      end
  end.

Definition int_dec (s : string) : result Z :=
  match s with
  | "" => inl ValueError
  | _ => digits_value s 0
  end.

Definition sim_execute (k : nat) (qc : QuantumCircuit) (shots : Z)
  : result Counts :=
  match outcomes qc with
  | y :: _ => if decide (0 < shots) then inr {[ y := shots ]} else inr ∅
  | [] => inr ∅
  end.

Definition sim_env : environment :=
  {| env_getoutput := sh_not_found; env_int := int_dec;
     env_execute := sim_execute |}.

Definition empty_world : world :=
  {| stdin := []; stdout := []; jobs := 0; heap := ∅; global_p1 := None |}.

(** ** Notions used in the statements *)

(** The code has a ['1'] at a position that the guess does not have. *)
Fixpoint one_past_end (s g : string) : bool :=
  match s, g with
  | "", _ => false
  | String a s', "" => is_one a || one_past_end s' ""
  | String _ s', String _ g' => one_past_end s' g'
  end.

(** The hint that [check] computes when it returns: [False] until the first
    position where code and guess both have a ['1'], the output of the shell
    command from then on. *)
Definition hint_value (getoutput : string -> list string) (s g : string)
  : pyval :=
  if decide (overlap s g = 0%nat) then PyBool false
  else SList (getoutput "odd").

(** The encoder as [encode] leaves it. *)
Definition encoder_of (s : string) : QuantumEncoder.QuantumEncoder :=
  (QuantumEncoder.encode QuantumEncoder.init s).2.

(** The circuit that [encode] returns. *)
Definition fragment (s : string) : QuantumCircuit :=
  (QuantumEncoder.encode QuantumEncoder.init s).1.

(** The instructions that the loop of [encode] appends for the items it is given. *)
Definition oracle_instrs (items : list (nat * ascii)) (len : nat) : list instr :=
  flat_map (fun iv => if is_one iv.2 then [CX iv.1 len] else []) items.

(** The parity of the number of items that have a ['1'] where the
    assignment has a 1. *)
Definition parity (items : list (nat * ascii)) (bits : list bool) : bool :=
  foldr (fun iv acc => xorb (is_one iv.2 && default false (bits !! iv.1)) acc)
    false items.

(** A backend of two shots that saw 01 once and 10 once, whatever the job. *)
Definition tied_counts : Counts := <["10" := 1]> {["01" := 1]}.

Definition tie_env : environment :=
  {| env_getoutput := sh_not_found; env_int := int_dec;
     env_execute := fun _ _ _ => inr tied_counts |}.

(** A backend that saw 01 twice, whatever the job. *)
Definition wrong_counts : Counts := {[ "01" := 2 ]}.

Definition wrong_env : environment :=
  {| env_getoutput := sh_not_found; env_int := int_dec;
     env_execute := fun _ _ _ => inr wrong_counts |}.



(** The lines that the rounds of the loop of [play] print, from the value
    of the attempt counter and the hints of the guesses that failed. *)
Fixpoint round_lines (attempts : Z) (hints : list pyval) : list string :=
  match hints with
  | [] => []
  | hint :: hints' =>
      ["incorrect guess"; hint_line hint; attempt_line (attempts + 1)]
        ++ round_lines (attempts + 1) hints'
  end.

(** A game between two humans in a notebook whose global name [p1] is bound
    to another code maker than the one the game was created with.  The
    human asks for a code of length 2, types 1 and 0, and the guesses are
    01 and then 10. *)
Definition other_p1_world : world :=
  {| stdin := ["2"; "1"; "0"; "01"; "10"]; stdout := []; jobs := 0;
     heap := <[0%nat := (HumanSetter, Codemaker.init)]>
               {[ 1%nat := (HumanSetter, {| Codemaker.code := "1111" |}) ]};
     global_p1 := Some 1%nat |}.

Definition other_p1_game : Game :=
  {| p1 := 0; p2 := HumanGuesser; encoder := QuantumEncoder.init |}.

(** ** States of the recovery circuit *)

(** The same instruction one qubit further from the root. *)
Definition shift (i : instr) : instr :=
  match i with
  | X q => X (S q)
  | H q => H (S q)
  | CX c t => CX (S c) (S t)
  | Barrier => Barrier
  | Measure q c => Measure (S q) c
  end.

(** [n] qubits in the sum of all their basis states, and a last qubit in
    the difference of its two. *)
Fixpoint plus_minus (n : nat) : qstate :=
  match n with
  | O => Qubit (Amp 1) (Amp (-1))
  | S n' => Qubit (plus_minus n') (plus_minus n')
  end.

(** The state after the circuit of [encode]: the sign of a basis state is
    the parity of the qubits at 1 among those whose item is a ['1']; the
    items are listed from qubit 0 on. *)
Fixpoint phase_state (r : list ascii) : qstate :=
  match r with
  | [] => plus_minus 0
  | v :: r' =>
      Qubit (phase_state r')
        (if is_one v then qscale (-1) (phase_state r') else phase_state r')
  end.

(** The state before the measurements: one basis state only, the one that
    spells the items, with the last qubit at 1. *)
Fixpoint answer_state (r : list ascii) : qstate :=
  match r with
  | [] => Qubit (Amp 0) (Amp 2)
  | v :: r' =>
      if is_one v
      then Qubit (qscale 0 (answer_state r')) (qscale 2 (answer_state r'))
      else Qubit (qscale 2 (answer_state r')) (qscale 0 (answer_state r'))
  end.

(** What [guess] puts before and after the circuit it is given; both are
    functions of the sizes of its registers alone. *)
Definition guess_prefix (nq : nat) : list instr :=
  [X (nq - 1)] ++ (H <$> seq 0 nq) ++ [Barrier].

Definition guess_suffix (nq nc : nat) : list instr :=
  [Barrier] ++ (H <$> seq 0 nq) ++ [Barrier]
    ++ zip_with Measure (seq 0 (nq - 1)) (seq 0 nc).

(** ** Worlds and notions for the properties of the players *)

(** A notebook with one human code maker, bound to the global name [p1],
    in which nothing has been typed. *)
Definition one_setter_world : world :=
  {| stdin := []; stdout := []; jobs := 0;
     heap := {[ 0%nat := (HumanSetter, Codemaker.init) ]};
     global_p1 := Some 0%nat |}.

(** The concatenation of the lines typed for a code. *)
Definition join (lines : list string) : string := foldr String.app "" lines.

(** Two humans at the notebook of [one_setter_world]: the length 2, the
    code 1 0, the guesses 01 and 10, and a line that is never read. *)
Definition humans_world : world :=
  set_stdin one_setter_world ["2"; "1"; "0"; "01"; "10"; "again"].

(** A human code maker against the quantum guesser: the length 3 and the
    code 1 0 1 are typed. *)
Definition human_quantum_world : world :=
  set_stdin one_setter_world ["3"; "1"; "0"; "1"].

Definition human_quantum_game : Game :=
  {| p1 := 0; p2 := QuantumGuesser 1; encoder := QuantumEncoder.init |}.

(** The parity of the number of places where the first list has a ['1']
    and the second a 1. *)
Fixpoint common_parity (a : list ascii) (b : list bool) : bool :=
  match a, b with
  | v :: a', x :: b' => xorb (is_one v && x) (common_parity a' b')
  | _, _ => false
  end.

(** A notebook with one quantum code maker of one shot. *)
Definition quantum_setter_world : world :=
  {| stdin := []; stdout := ["before"]; jobs := 0;
     heap := {[ 0%nat := (QuantumSetter 1, Codemaker.init) ]};
     global_p1 := Some 0%nat |}.
(** ** Facts about strings *)

Lemma string_app_nil_l (s : string) : "" +:+ s = s.
Proof. reflexivity. Qed.

Lemma string_app_cons (a : ascii) (s1 s2 : string) :
  String a s1 +:+ s2 = String a (s1 +:+ s2).
Proof. reflexivity. Qed.

Lemma string_app_empty_r (s : string) : s +:+ "" = s.
Proof.
  induction s as [|a s IH]; [done|]. by rewrite string_app_cons, IH.
Qed.

Lemma string_app_assoc (s1 s2 s3 : string) :
  (s1 +:+ s2) +:+ s3 = s1 +:+ (s2 +:+ s3).
Proof.
  induction s1 as [|a s1 IH]; [done|]. by rewrite !string_app_cons, IH.
Qed.

Lemma string_app_length (s1 s2 : string) :
  String.length (s1 +:+ s2) = (String.length s1 + String.length s2)%nat.
Proof.
  induction s1 as [|a s1 IH]; [done|].
  rewrite string_app_cons. simpl. by rewrite IH.
Qed.

Lemma string_get_app_r (s1 s2 : string) (i : nat) :
  String.get (String.length s1 + i) (s1 +:+ s2) = String.get i s2.
Proof.
  induction s1 as [|a s1 IH]; [done|]. rewrite string_app_cons. by simpl.
Qed.

(** ** [codemaker]: the stored code *)

Module CodemakerFacts.
Import Codemaker.

(** Running the loop over the indices of a suffix appends that suffix. *)
Lemma setCode_loop_str (pre suf : string) (self : codemaker) :
  setCode_loop (PyStr (pre +:+ suf))
    (seq (String.length pre) (String.length suf)) self
  = inr {| code := code self +:+ suf |}.
Proof.
  revert pre self. induction suf as [|a suf IH]; intros pre self; simpl.
  - rewrite string_app_empty_r. by destruct self.
  - unfold str_getitem.
    replace (String.length pre) with (String.length pre + 0)%nat at 1 by lia.
    rewrite string_get_app_r. simpl.
    replace (pre +:+ String a suf) with ((pre +:+ String a "") +:+ suf)
      by (by rewrite string_app_assoc).
    replace (S (String.length pre)) with (String.length (pre +:+ String a ""))
      by (rewrite string_app_length; simpl; lia).
    rewrite IH. simpl. by rewrite string_app_assoc.
Qed.

Lemma setCode_str (self : codemaker) (c : string) :
  setCode self (PyStr c) = inr {| code := c |}.
Proof.
  unfold setCode. simpl.
  apply (setCode_loop_str "" c {| code := "" |}).
Qed.

(** With a list of strings, as [HumanSetter] calls it, the stored code is
    the concatenation of the items. *)
Lemma setCode_loop_list (pre suf : list string) (self : codemaker) :
  setCode_loop (PyList (pre ++ suf)) (seq (length pre) (length suf)) self
  = inr {| code := code self +:+ foldr String.app "" suf |}.
Proof.
  revert pre self. induction suf as [|x suf IH]; intros pre self; simpl.
  - rewrite string_app_empty_r. by destruct self.
  - rewrite lookup_app_r by lia. rewrite Nat.sub_diag. simpl.
    replace (pre ++ x :: suf) with ((pre ++ [x]) ++ suf)
      by (by rewrite <- app_assoc).
    replace (S (length pre)) with (length (pre ++ [x]))
      by (rewrite length_app; simpl; lia).
    rewrite IH. simpl. by rewrite string_app_assoc.
Qed.

Lemma setCode_list (self : codemaker) (l : list string) :
  setCode self (PyList l) = inr {| code := foldr String.app "" l |}.
Proof.
  unfold setCode. simpl.
  apply (setCode_loop_list [] l {| code := "" |}).
Qed.

(** C10: for every string [c], [setCode(c)] succeeds and a following
    [getCode()] returns a string equal to [c]; [getCode] leaves the
    object as it found it, so that [setCode] is the only operation of
    [codemaker] that changes the stored code (the constructor creates it
    empty). *)
Theorem setCode_getCode_roundtrip (self : codemaker) (c : string) :
  (exists self', setCode self (PyStr c) = inr self'
                 /\ fst (getCode self') = c)
  /\ (forall o : codemaker, snd (getCode o) = o /\ fst (getCode o) = code o)
  /\ code init = "".
Proof.
  split; [|split].
  - exists {| code := c |}. split; [apply setCode_str | done].
  - intros o. done.
  - done.
Qed.

End CodemakerFacts.


(** ** [QuantumEncoder.check] *)

Module CheckFacts.
Import QuantumEncoder.

Section Shell.
Variable sh : string -> list string.

Lemma string_get_nil (j : nat) : String.get j "" = None.
Proof. by destruct j. Qed.

(** The loop of [check] from position [i] on, where the guess from [i] on
    reads [g]. *)
Lemma check_loop_spec (s g : string) (i : nat) (input : string) (odd : pyval) :
  (forall j, String.get (i + j) input = String.get j g) ->
  check_loop sh (enumerate_from i (chars s)) input odd
  = if one_past_end s g then inl IndexError
    else inr (if decide (overlap s g = 0%nat) then odd
              else SList (sh "odd")).
Proof.
  revert g i odd. induction s as [|a s IH]; intros g i odd Hget; [done|].
  cbn [chars String.list_ascii_of_string enumerate_from check_loop].
  fold (chars s). unfold str_getitem.
  pose proof (Hget 0%nat) as H0. rewrite Nat.add_0_r in H0. rewrite H0.
  destruct g as [|b g]; cbn [String.get one_past_end overlap].
  - assert (Hnil : forall j, String.get (S i + j) input = String.get j "").
    { intros j. rewrite string_get_nil.
      replace (S i + j)%nat with (i + S j)%nat by lia. by rewrite Hget. }
    destruct (is_one a); [done|]. cbn [orb].
    rewrite (IH "" (S i) odd Hnil).
    assert (Hov : overlap s "" = 0%nat) by (by destruct s).
    rewrite Hov. by destruct (one_past_end s "").
  - assert (Hcons : forall j, String.get (S i + j) input = String.get j g).
    { intros j. replace (S i + j)%nat with (i + S j)%nat by lia.
      by rewrite Hget. }
    destruct (is_one a) eqn:Ha; cbn [andb].
    + assert (Hb : String.eqb (String b "") "1" = is_one b).
      { unfold is_one. cbn [String.eqb]. by destruct (Ascii.eqb b "1"). }
      rewrite Hb. destruct (is_one b).
      * rewrite (IH g (S i) _ Hcons).
        destruct (one_past_end s g); [done|].
        f_equal. repeat case_decide; first [lia | done].
      * rewrite (IH g (S i) _ Hcons). by rewrite Nat.add_0_l.
    + rewrite (IH g (S i) _ Hcons). by rewrite Nat.add_0_l.
Qed.

(** What [check] does on every code and every guess. *)
Lemma check_spec (s g : string) :
  check sh (encoder_of s) g
  = if one_past_end s g then inl IndexError
    else inr (hint_value sh s g, String.eqb s g).
Proof.
  unfold check, encoder_of, encode, enumerate. cbn [snd code].
  rewrite (check_loop_spec s g 0 g (PyBool false)) by done.
  unfold hint_value. by destruct (one_past_end s g).
Qed.

Lemma one_past_end_le (s g : string) :
  (String.length s <= String.length g)%nat -> one_past_end s g = false.
Proof.
  revert g. induction s as [|a s IH]; intros g Hle; [done|].
  destruct g as [|b g]; simpl in *; [lia|]. apply IH. lia.
Qed.

End Shell.

(** C1: for a secret and a guess of the same length, [check] returns, and
    its second component, matched, is true exactly when the guess equals
    the secret. *)
Theorem check_matched_iff (sh : string -> list string) (S G : string) :
  String.length G = String.length S ->
  exists hint matched,
    check sh (encoder_of S) G = inr (hint, matched)
    /\ (matched = true <-> G = S).
Proof.
  intros Hlen. rewrite check_spec, one_past_end_le by lia.
  exists (hint_value sh S G), (String.eqb S G). split; [done|].
  rewrite String.eqb_eq. naive_solver.
Qed.

Lemma check_matched_iff_witness :
  String.length "1010" = String.length "1010"
  /\ exists hint matched,
       check sh_not_found (encoder_of "1010") "1010" = inr (hint, matched)
       /\ (matched = true <-> "1010" = "1010").
Proof.
  split; [reflexivity|].
  apply (check_matched_iff sh_not_found "1010" "1010"). reflexivity.
Defined.

(** C2: the hint of [check] is not the parity of the number of positions
    where guess and secret both have a ['1'].  With the secret 111, the
    guess 110 (two such positions) and the guess 100 (one) get the same
    hint, the output of the shell command [odd], whatever the shell prints;
    and where the shell has no such command and says so, the hint for 110
    counts as true, which the game prints as odd. *)
Theorem check_hint_is_not_parity (sh : string -> list string) :
  check sh (encoder_of "111") "110" = inr (SList (sh "odd"), false)
  /\ check sh (encoder_of "111") "100" = inr (SList (sh "odd"), false)
  /\ overlap "111" "110" = 2%nat
  /\ overlap "111" "100" = 1%nat
  /\ (exists hint, check sh_not_found (encoder_of "111") "110" = inr (hint, false)
                   /\ truthy hint = true).
Proof.
  repeat split; try reflexivity.
  eexists. split; reflexivity.
Qed.

(** The same loop does give [False] when no position has a ['1'] in both. *)
Lemma check_hint_no_overlap (sh : string -> list string) (S G : string) :
  String.length G = String.length S ->
  overlap S G = 0%nat ->
  check sh (encoder_of S) G = inr (PyBool false, String.eqb S G).
Proof.
  intros Hlen Hov. rewrite check_spec, one_past_end_le by lia.
  unfold hint_value. by rewrite decide_True.
Qed.

(** A guess longer than the secret is checked without any failure. *)
Lemma check_longer_guess_returns :
  String.length "100" <> String.length "10"
  /\ check sh_not_found (encoder_of "10") "100"
     = inr (SList ["/bin/sh: 1: odd: not found"], false).
Proof. split; [discriminate | reflexivity]. Qed.

Lemma string_eqb_length (s g : string) :
  String.length s <> String.length g -> String.eqb s g = false.
Proof. intros Hne. apply String.eqb_neq. by intros ->. Qed.

(** C5, as the code has it: [check] never fails with a length mismatch
    error.  With a guess as long as the secret it returns; with a longer
    guess it returns too, matched being false; with a shorter guess it
    raises [IndexError] when the secret has a ['1'] at a position that the
    guess does not have, and returns otherwise, matched being false. *)
Theorem check_length_cases (sh : string -> list string) (S G : string) :
  let r := check sh (encoder_of S) G in
  r <> inl LengthMismatchError
  /\ match Nat.compare (String.length G) (String.length S) with
     | Eq => r = inr (hint_value sh S G, String.eqb S G)
     | Gt => r = inr (hint_value sh S G, false)
     | Lt => r = if one_past_end S G then inl IndexError
                 else inr (hint_value sh S G, false)
     end.
Proof.
  cbv zeta. rewrite check_spec. split.
  - by destruct (one_past_end S G).
  - destruct (Nat.compare_spec (String.length G) (String.length S)) as [He|Hl|Hg].
    + by rewrite one_past_end_le by lia.
    + by rewrite (string_eqb_length S G) by lia.
    + rewrite one_past_end_le by lia.
      by rewrite (string_eqb_length S G) by lia.
Qed.

End CheckFacts.

(** ** [QuantumEncoder.encode] *)

Module EncodeFacts.
Import QuantumEncoder.

Lemma encode_loop_data (items : list (nat * ascii)) (len : nat)
    (qc : QuantumCircuit) :
  encode_loop items len qc
  = Circuit.append_all qc (oracle_instrs items len).
Proof.
  revert qc. induction items as [|[i v] items IH]; intros qc.
  - unfold Circuit.append_all. simpl. rewrite app_nil_r. by destruct qc.
  - cbn [encode_loop oracle_instrs flat_map snd fst]. rewrite IH.
    fold (oracle_instrs items len).
    destruct (is_one v); [|done].
    unfold Circuit.cx, Circuit.append_all. simpl. by rewrite <- app_assoc.
Qed.

Lemma fragment_eq (s : string) :
  fragment s
  = {| num_qubits := String.length s + 1; num_clbits := String.length s;
       data := oracle_instrs (enumerate (reverse (chars s))) (String.length s) |}.
Proof. unfold fragment, encode. cbn [fst]. by rewrite encode_loop_data. Qed.

Lemma enumerate_from_bounds {A} (k : nat) (l : list A) (i : nat) (a : A) :
  (i, a) ∈ enumerate_from k l -> (k <= i < k + length l)%nat.
Proof.
  revert k. induction l as [|b l IH]; intros k Hin; simpl in *.
  - by apply elem_of_nil in Hin.
  - apply elem_of_cons in Hin as [Heq|Hin].
    + inversion Heq. lia.
    + apply IH in Hin. lia.
Qed.

Lemma length_chars (s : string) : length (chars s) = String.length s.
Proof. induction s as [|a s IH]; simpl; [done | by rewrite IH]. Qed.

(** The parity only reads the controls. *)
Lemma parity_insert (items : list (nat * ascii)) (len : nat) (b : bool)
    (bits : list bool) :
  (forall i v, (i, v) ∈ items -> (i < len)%nat) ->
  parity items (<[len := b]> bits) = parity items bits.
Proof.
  intros Hlt. induction items as [|[i v] items IH]; [done|].
  cbn [parity foldr fst snd]. fold (parity items (<[len := b]> bits)).
  fold (parity items bits).
  rewrite IH by (intros i' v' Hin; apply (Hlt i' v'); by right).
  rewrite list_lookup_insert_ne; [done|].
  specialize (Hlt i v (list_elem_of_here _ _)). lia.
Qed.

(** The circuit of [encode] adds to the last bit the parity of the controls,
    and changes nothing else. *)
Lemma run_bits_oracle (items : list (nat * ascii)) (len : nat)
    (bits : list bool) :
  (forall i v, (i, v) ∈ items -> (i < len)%nat) ->
  length bits = S len ->
  run_bits (oracle_instrs items len) bits
  = Some (<[len := xorb (default false (bits !! len)) (parity items bits)]> bits).
Proof.
  intros Hlt. revert bits.
  induction items as [|[i v] items IH]; intros bits Hlen.
  - cbn [oracle_instrs flat_map run_bits parity foldr].
    destruct (lookup_lt_is_Some_2 bits len) as [b Hb]; [lia|].
    rewrite Hb. cbn [from_option id]. rewrite xorb_false_r.
    by rewrite list_insert_id.
  - assert (Hrest : forall i' v', (i', v') ∈ items -> (i' < len)%nat)
      by (intros i' v' Hin; apply (Hlt i' v'); by right).
    assert (Hi : (i < len)%nat) by apply (Hlt i v), list_elem_of_here.
    cbn [oracle_instrs flat_map fst snd parity foldr].
    fold (oracle_instrs items len). fold (parity items bits).
    destruct (lookup_lt_is_Some_2 bits len) as [bt Hbt]; [lia|].
    destruct (lookup_lt_is_Some_2 bits i) as [bc Hbc]; [lia|].
    rewrite Hbt, Hbc. cbn [from_option id].
    destruct (is_one v); cbn [andb app].
    + cbn [run_bits apply_bits]. rewrite Hbc, Hbt.
      rewrite decide_False by lia.
      rewrite (IH Hrest) by (by rewrite length_insert).
      rewrite list_lookup_insert_eq by lia. cbn [from_option id].
      rewrite parity_insert by done.
      rewrite list_insert_insert_eq. by rewrite xorb_assoc.
    + rewrite (IH Hrest) by done. rewrite Hbt. cbn [from_option id]. by rewrite xorb_false_l.
Qed.

(** C4: the fragment that [encode] returns is its own inverse on the
    assignments of bits to its [L+1] qubits: applied to any such assignment
    it gives an assignment, to which a second application gives back the
    first. *)
Theorem fragment_self_inverse (s : string) (bits : list bool) :
  length bits = (String.length s + 1)%nat ->
  exists bits',
    run_bits (data (fragment s)) bits = Some bits'
    /\ run_bits (data (fragment s)) bits' = Some bits.
Proof.
  intros Hlen. rewrite fragment_eq. cbn [data].
  set (items := enumerate (reverse (chars s))).
  assert (Hlt : forall i v, (i, v) ∈ items -> (i < String.length s)%nat).
  { intros i v Hin. apply enumerate_from_bounds in Hin.
    rewrite length_reverse, length_chars in Hin. lia. }
  eexists. split; [apply run_bits_oracle; [done | lia]|].
  rewrite run_bits_oracle; [|done | rewrite length_insert; lia].
  rewrite list_lookup_insert_eq by lia. cbn [from_option id].
  rewrite parity_insert by done. rewrite list_insert_insert_eq.
  destruct (lookup_lt_is_Some_2 bits (String.length s)) as [b Hb]; [lia|].
  rewrite Hb. cbn [from_option id].
  rewrite xorb_assoc, xorb_nilpotent, xorb_false_r.
  by rewrite list_insert_id.
Qed.

Lemma fragment_self_inverse_witness :
  length [true; false; true; true; false] = (String.length "1010" + 1)%nat
  /\ exists bits',
       run_bits (data (fragment "1010")) [true; false; true; true; false]
       = Some bits'
       /\ run_bits (data (fragment "1010")) bits'
          = Some [true; false; true; true; false].
Proof.
  split; [reflexivity|].
  apply (fragment_self_inverse "1010" [true; false; true; true; false]).
  reflexivity.
Defined.

End EncodeFacts.

(** ** The most frequent outcome *)

Module CountsFacts.

Lemma foldl_max_spec (rest : list (string * Z)) (m0 : Z) :
  let m := foldl (fun m x => Z.max m x.2) m0 rest in
  m0 <= m
  /\ (forall x, x ∈ rest -> x.2 <= m)
  /\ (m = m0 \/ exists x, x ∈ rest /\ x.2 = m).
Proof.
  revert m0. induction rest as [|a rest IH]; intros m0; cbn [foldl].
  - split; [lia|]. split; [by intros x ?%elem_of_nil | by left].
  - destruct (IH (Z.max m0 a.2)) as (Hle & Hall & Hreach).
    split; [lia|]. split.
    + intros x [->|Hin]%elem_of_cons; [lia | by apply Hall].
    + destruct Hreach as [Heq|(x & Hin & Hx)].
      * destruct (Z.max_spec m0 a.2) as [[_ Hmax]|[_ Hmax]].
        -- right. exists a. split; [left | lia].
        -- left. lia.
      * right. exists x. split; [by right | done].
Qed.

(** The greatest frequency bounds every frequency of the table and is one
    of them. *)
Lemma max_value_spec (kv : string * Z) (rest : list (string * Z)) :
  (forall x, x ∈ kv :: rest -> x.2 <= max_value kv rest)
  /\ (exists x, x ∈ kv :: rest /\ x.2 = max_value kv rest).
Proof.
  unfold max_value.
  destruct (foldl_max_spec rest kv.2) as (Hle & Hall & Hreach). split.
  - intros x [->|Hin]%elem_of_cons; [done | by apply Hall].
  - destruct Hreach as [Heq|(x & Hin & Hx)].
    + exists kv. split; [left | done].
    + exists x. split; [by right | done].
Qed.

Lemma NoDup_only {A} (k : list A) (x : A) :
  NoDup k -> (forall z, z ∈ k <-> z = x) -> k = [x].
Proof.
  intros Hnd Hk. destruct k as [|a k].
  - assert (Hx : x ∈ @nil A) by (by apply Hk). by apply elem_of_nil in Hx.
  - assert (a = x) as -> by (apply Hk; left).
    destruct k as [|b k]; [done|].
    assert (b = x) as -> by (apply Hk; right; left).
    apply NoDup_cons in Hnd as [Hnotin _]. destruct Hnotin. left.
Qed.

(** An outcome more frequent than every other one is the most frequent. *)
Lemma most_frequent_unique (counts : Counts) (y : string) (n : Z) :
  counts !! y = Some n ->
  (forall y' n', counts !! y' = Some n' -> y' <> y -> n' < n) ->
  most_frequent counts = inr y.
Proof.
  intros Hy Hothers. unfold most_frequent.
  pose proof (NoDup_map_to_list counts) as Hnd.
  assert (Hin : (y, n) ∈ map_to_list counts) by (by apply elem_of_map_to_list).
  destruct (map_to_list counts) as [|kv rest] eqn:Hl;
    [by apply elem_of_nil in Hin|].
  destruct (max_value_spec kv rest) as [Hbound ([y0 n0] & Hin0 & Hmax)].
  assert (Hone : forall z, z ∈ kv :: rest -> z.2 = max_value kv rest ->
                           z = (y, n)).
  { intros [y' n'] Hz Hz2. cbn [snd] in *.
    pose proof (Hbound _ Hin) as Hle. cbn [snd] in Hle.
    assert (Hz' : counts !! y' = Some n')
      by (apply elem_of_map_to_list; by rewrite Hl).
    destruct (decide (y' = y)) as [->|Hne]; [congruence|].
    specialize (Hothers y' n' Hz' Hne). lia. }
  assert (Hmaxn : max_value kv rest = n).
  { specialize (Hone _ Hin0 Hmax). inversion Hone; subst. by cbn [snd] in Hmax. }
  rewrite (NoDup_only (filter _ (kv :: rest)) (y, n)); [done | |].
  - by apply NoDup_filter.
  - intros z. rewrite list_elem_of_filter. split.
    + intros [Hz2 Hz]. by apply Hone.
    + intros ->. by split.
Qed.

(** A table where two outcomes share the greatest frequency has no most
    frequent outcome. *)
Lemma most_frequent_tie (counts : Counts) (y1 y2 : string) (n : Z) :
  y1 <> y2 ->
  counts !! y1 = Some n ->
  counts !! y2 = Some n ->
  (forall y' n', counts !! y' = Some n' -> n' <= n) ->
  most_frequent counts = inl QiskitError.
Proof.
  intros Hne H1 H2 Hall. unfold most_frequent.
  assert (Hin1 : (y1, n) ∈ map_to_list counts) by (by apply elem_of_map_to_list).
  assert (Hin2 : (y2, n) ∈ map_to_list counts) by (by apply elem_of_map_to_list).
  assert (Hle : forall z, z ∈ map_to_list counts -> z.2 <= n).
  { intros [y' n'] Hz%elem_of_map_to_list. by apply (Hall y'). }
  destruct (map_to_list counts) as [|kv rest] eqn:Hl; [done|].
  destruct (max_value_spec kv rest) as [Hbound (x0 & Hin0 & Hmax)].
  assert (Hmaxn : max_value kv rest = n).
  { pose proof (Hbound _ Hin1) as Hb. pose proof (Hle _ Hin0) as Hb0.
    cbn [snd] in Hb. lia. }
  assert (Hf1 : (y1, n) ∈ filter (fun x => x.2 = max_value kv rest) (kv :: rest))
    by (apply list_elem_of_filter; by split).
  assert (Hf2 : (y2, n) ∈ filter (fun x => x.2 = max_value kv rest) (kv :: rest))
    by (apply list_elem_of_filter; by split).
  destruct (filter _ (kv :: rest)) as [|x [|x' k]]; [done | | done].
  apply list_elem_of_singleton in Hf1, Hf2. congruence.
Qed.

(** What [most_frequent] returns is in the table and is more frequent than
    every other outcome. *)
Lemma most_frequent_inv (counts : Counts) (y : string) :
  most_frequent counts = inr y ->
  exists n,
    counts !! y = Some n
    /\ forall y' n', counts !! y' = Some n' -> y' <> y -> n' < n.
Proof.
  unfold most_frequent. intros Hmost.
  destruct (map_to_list counts) as [|kv rest] eqn:Hl; [done|].
  destruct (max_value_spec kv rest) as [Hbound _].
  destruct (filter _ (kv :: rest)) as [|[y0 n] [|x' k]] eqn:Hf; [done | | done].
  inversion Hmost; subst. cbn [fst].
  assert (Hx : (y, n) ∈ filter (fun x => x.2 = max_value kv rest) (kv :: rest))
    by (rewrite Hf; left).
  apply list_elem_of_filter in Hx as [Hxn Hx]. cbn [snd] in Hxn.
  exists n. split; [apply elem_of_map_to_list; by rewrite Hl|].
  intros y' n' Hy' Hne.
  assert (Hz : (y', n') ∈ kv :: rest)
    by (rewrite <- Hl; by apply elem_of_map_to_list).
  pose proof (Hbound _ Hz) as Hle. cbn [snd] in Hle.
  destruct (decide (n' = n)) as [->|]; [|lia].
  assert (Hz' : (y', n) ∈ filter (fun x => x.2 = max_value kv rest) (kv :: rest))
    by (apply list_elem_of_filter; by split).
  rewrite Hf in Hz'. apply list_elem_of_singleton in Hz'. congruence.
Qed.

(** The only failure of [most_frequent] is the library's. *)
Lemma most_frequent_error (counts : Counts) (e : exn) :
  most_frequent counts = inl e -> e = QiskitError.
Proof.
  unfold most_frequent. destruct (map_to_list counts) as [|kv rest];
    [congruence|].
  destruct (filter _ (kv :: rest)) as [|x [|x' k]]; congruence.
Qed.

Lemma most_frequent_empty : most_frequent ∅ = inl QiskitError.
Proof. reflexivity. Qed.

End CountsFacts.

(** ** [QuantumGuesser.guess] *)

Module GuessFacts.

(** [guess] submits one job, with the shots it was created with, and
    decodes what the backend answers. *)
Lemma QuantumGuesser_guess_eq (env : environment) (shots : Z)
    (code : QuantumCircuit) (w : world) :
  guess env (QuantumGuesser shots) code w
  = (rbind (env_execute env (jobs w) (guess_program code) shots) most_frequent,
     set_jobs w (S (jobs w))).
Proof.
  unfold guess, QuantumGuesser_guess, bind, execute, lift, rbind.
  by destruct (env_execute env (jobs w) (guess_program code) shots).
Qed.

(** On a table where two outcomes share the greatest frequency, [guess]
    fails instead of returning the smaller of the two. *)
Lemma guess_fails_on_tie :
  tied_counts !! "01" = Some 1
  /\ tied_counts !! "10" = Some 1
  /\ (forall y n, tied_counts !! y = Some n -> n <= 1)
  /\ (guess tie_env (QuantumGuesser 2) (fragment "10") empty_world).1
     = inl QiskitError.
Proof.
  split; [reflexivity|]. split; [reflexivity|]. split; [|reflexivity].
  intros y n Hy. unfold tied_counts in Hy.
  apply lookup_insert_Some in Hy as [[_ <-]|[_ Hy]]; [lia|].
  apply lookup_singleton_Some in Hy as [_ <-]. lia.
Qed.

(** C7, as the code has it: when the backend answers a job with a table in
    which one outcome is more frequent than every other one, [guess]
    returns that outcome, and [guess] returns no other outcome than such a
    one; when two outcomes share the greatest frequency, [guess] does not
    choose between them: it fails, with the error of the circuit library. *)
Theorem guess_most_frequent_or_fails (env : environment) (shots : Z)
    (code : QuantumCircuit) (w : world) (counts : Counts) :
  env_execute env (jobs w) (guess_program code) shots = inr counts ->
  (forall y n,
     counts !! y = Some n ->
     (forall y' n', counts !! y' = Some n' -> y' <> y -> n' < n) ->
     (guess env (QuantumGuesser shots) code w).1 = inr y)
  /\ (forall y,
       (guess env (QuantumGuesser shots) code w).1 = inr y ->
       exists n,
         counts !! y = Some n
         /\ forall y' n', counts !! y' = Some n' -> y' <> y -> n' < n)
  /\ (forall y1 y2 n,
       y1 <> y2 ->
       counts !! y1 = Some n ->
       counts !! y2 = Some n ->
       (forall y' n', counts !! y' = Some n' -> n' <= n) ->
       (guess env (QuantumGuesser shots) code w).1 = inl QiskitError).
Proof.
  intros Hexec. rewrite QuantumGuesser_guess_eq, Hexec. cbn [fst rbind].
  split; [|split].
  - intros y n. apply CountsFacts.most_frequent_unique.
  - intros y. apply CountsFacts.most_frequent_inv.
  - intros y1 y2 n. apply CountsFacts.most_frequent_tie.
Qed.

Lemma guess_most_frequent_or_fails_witness :
  env_execute tie_env (jobs empty_world) (guess_program (fragment "10")) 2
  = inr tied_counts
  /\ (forall y n,
       tied_counts !! y = Some n ->
       (forall y' n', tied_counts !! y' = Some n' -> y' <> y -> n' < n) ->
       (guess tie_env (QuantumGuesser 2) (fragment "10") empty_world).1 = inr y)
  /\ (forall y,
       (guess tie_env (QuantumGuesser 2) (fragment "10") empty_world).1 = inr y ->
       exists n,
         tied_counts !! y = Some n
         /\ forall y' n', tied_counts !! y' = Some n' -> y' <> y -> n' < n)
  /\ (forall y1 y2 n,
       y1 <> y2 ->
       tied_counts !! y1 = Some n ->
       tied_counts !! y2 = Some n ->
       (forall y' n', tied_counts !! y' = Some n' -> n' <= n) ->
       (guess tie_env (QuantumGuesser 2) (fragment "10") empty_world).1
       = inl QiskitError).
Proof.
  split; [reflexivity|].
  apply (guess_most_frequent_or_fails tie_env 2 (fragment "10") empty_world
           tied_counts).
  reflexivity.
Defined.

(** With no shots asked, [guess] still submits its job. *)
Lemma guess_zero_shots_runs_job :
  0 < 1
  /\ guess sim_env (QuantumGuesser 0) (fragment "10") empty_world
     = (inl QiskitError, set_jobs empty_world 1).
Proof. split; [lia | reflexivity]. Qed.

(** C6, as the code has it: [guess] does not look at the number of shots.
    Also when it is less than 1, the job is submitted to the backend
    with that number; [guess] then fails if the backend fails, with the
    failure of the backend, and otherwise returns or fails as the decoding
    of the backend's table does; an invalid program error can only come
    from the backend. *)
Theorem guess_submits_any_shots (env : environment) (shots : Z)
    (code : QuantumCircuit) (w : world) :
  shots < 1 ->
  jobs (guess env (QuantumGuesser shots) code w).2 = S (jobs w)
  /\ (forall e, env_execute env (jobs w) (guess_program code) shots = inl e ->
       (guess env (QuantumGuesser shots) code w).1 = inl e)
  /\ (forall counts,
       env_execute env (jobs w) (guess_program code) shots = inr counts ->
       (guess env (QuantumGuesser shots) code w).1 = most_frequent counts)
  /\ ((guess env (QuantumGuesser shots) code w).1 = inl InvalidProgramError ->
      env_execute env (jobs w) (guess_program code) shots
      = inl InvalidProgramError).
Proof.
  intros _. rewrite QuantumGuesser_guess_eq. cbn [fst snd].
  split; [done|]. split; [by intros ? ->|]. split; [by intros ? ->|].
  destruct (env_execute env (jobs w) (guess_program code) shots)
    as [e|counts]; cbn [rbind]; [congruence|].
  by intros ?%CountsFacts.most_frequent_error.
Qed.

Lemma guess_submits_any_shots_witness :
  0 < 1
  /\ jobs (guess sim_env (QuantumGuesser 0) (fragment "10") empty_world).2
     = S (jobs empty_world)
  /\ (forall e,
       env_execute sim_env (jobs empty_world) (guess_program (fragment "10")) 0
       = inl e ->
       (guess sim_env (QuantumGuesser 0) (fragment "10") empty_world).1 = inl e)
  /\ (forall counts,
       env_execute sim_env (jobs empty_world) (guess_program (fragment "10")) 0
       = inr counts ->
       (guess sim_env (QuantumGuesser 0) (fragment "10") empty_world).1
       = most_frequent counts)
  /\ ((guess sim_env (QuantumGuesser 0) (fragment "10") empty_world).1
      = inl InvalidProgramError ->
      env_execute sim_env (jobs empty_world) (guess_program (fragment "10")) 0
      = inl InvalidProgramError).
Proof.
  split; [lia|].
  apply (guess_submits_any_shots sim_env 0 (fragment "10") empty_world). lia.
Defined.

End GuessFacts.

(** ** [Game.play] *)

Module GameFacts.

Lemma guess_stdout (env : environment) (p : guesser) (code : QuantumCircuit)
    (w : world) :
  stdout (guess env p code w).2 = stdout w.
Proof.
  destruct p as [|shots].
  - unfold guess, HumanGuesser_guess.
    by destruct (HumanGuesser_loop (num_clbits code) (stdin w) None 0).
  - by rewrite GuessFacts.QuantumGuesser_guess_eq.
Qed.

(** One round: three lines are printed, the counter grows by one, and the
    next guess is made and checked. *)
Lemma play_round_eq (env : environment) (self : Game)
    (enc : QuantumEncoder.QuantumEncoder) (code : QuantumCircuit)
    (attempts : Z) (hint : pyval) (w : world) :
  play_round env self enc code attempts hint w
  = let w' := set_stdout w (stdout w ++ round_lines attempts [hint]) in
    match guess env (p2 self) code w' with
    | (inl e, w'') => (inl e, w'')
    | (inr g, w'') =>
        match QuantumEncoder.check (env_getoutput env) enc g with
        | inl e => (inl e, w'')
        | inr hc => (inr (attempts + 1, hc.1, hc.2), w'')
        end
    end.
Proof.
  unfold play_round, bind, print, lift, ret. cbv zeta.
  cbn [round_lines app]. unfold set_stdout.
  cbn [stdout stdin jobs heap global_p1].
  rewrite <- !app_assoc. cbn [app].
  destruct (guess env (p2 self) code _) as [[e|g] w'']; [done|].
  by destruct (QuantumEncoder.check (env_getoutput env) enc g).
Qed.

(** When the loop ends with a match, the counter has grown by one for each
    round, and each round has printed that the guess was incorrect, a hint
    and the new value of the counter, in this order; the first hint printed
    is the one that the loop was entered with. *)
Lemma play_loop_trace (env : environment) (fuel : nat) (self : Game)
    (enc : QuantumEncoder.QuantumEncoder) (code : QuantumCircuit)
    (attempts : Z) (hint : pyval) (correct : bool) (w : world)
    (n : Z) (w' : world) :
  play_loop env fuel self enc code attempts hint correct w = Some (inr n, w') ->
  exists hints,
    n = attempts + Z.of_nat (length hints)
    /\ stdout w' = stdout w ++ round_lines attempts hints
    /\ (correct = true -> hints = [])
    /\ (correct = false -> head hints = Some hint).
Proof.
  revert attempts hint correct w.
  induction fuel as [|fuel IH]; intros attempts hint correct w Hloop.
  - destruct correct; [|done]. simpl in Hloop. inversion Hloop; subst.
    exists []. simpl. rewrite app_nil_r. repeat split; [lia | done].
  - destruct correct.
    { simpl in Hloop. inversion Hloop; subst.
      exists []. simpl. rewrite app_nil_r. repeat split; [lia | done]. }
    cbn [play_loop] in Hloop. rewrite play_round_eq in Hloop. cbv zeta in Hloop.
    pose proof (guess_stdout env (p2 self) code
      (set_stdout w (stdout w ++ round_lines attempts [hint]))) as Hout.
    destruct (guess env (p2 self) code _) as [[e|g] w'']; [done|].
    destruct (QuantumEncoder.check (env_getoutput env) enc g) as [e|[h c]];
      [done|].
    cbn [fst snd] in Hloop, Hout.
    apply IH in Hloop as (hints & Hn & Hstd & _ & _).
    exists (hint :: hints). repeat split; [| |done].
    + rewrite Hn. cbn [length]. lia.
    + rewrite Hstd, Hout. cbn [set_stdout stdout round_lines].
      by rewrite <- app_assoc.
Qed.

(** The loop is not entered after a guess that matched. *)
Lemma play_loop_matched (env : environment) (fuel : nat) (self : Game)
    (enc : QuantumEncoder.QuantumEncoder) (code : QuantumCircuit)
    (attempts : Z) (hint : pyval) (w : world) :
  play_loop env fuel self enc code attempts hint true w = Some (inr attempts, w).
Proof. by destruct fuel. Qed.

Lemma getCode_eq (p : nat) (w : world) :
  getCode p w
  = (inr (Codemaker.code (default (HumanSetter, Codemaker.init) (heap w !! p)).2),
     w).
Proof. reflexivity. Qed.

(** The last line names the code of the object bound to the global [p1]. *)
Lemma play_end_global (w : world) (g : nat) (c : string) :
  global_p1 w = Some g ->
  (getCode g w).1 = inr c ->
  play_end w = (inr tt, set_stdout w (stdout w ++ [found_line c])).
Proof.
  intros Hg Hc. unfold play_end. rewrite Hg.
  rewrite getCode_eq in Hc. cbn [fst] in Hc. inversion Hc; subst.
  reflexivity.
Qed.

Lemma play_end_unbound (w : world) :
  global_p1 w = None -> play_end w = (inl NameError, w).
Proof. intros Hg. unfold play_end. by rewrite Hg. Qed.

(** C9: the report at the end of [play] is not about the code of the game's
    own code maker.  In a notebook where the global name [p1] is bound to
    another code maker, with the code 1111, a game whose own code maker was
    given the code 10 runs as it should up to the match (the counter
    starts at 1, the failed guess 01 gets its hint and the counter becomes
    2, the guess 10 ends the loop), and then reports 1111. *)
Theorem play_reports_global_p1 :
  match play sim_env 1 other_p1_game other_p1_world with
  | Some (inr _, w) =>
      stdout w
      = [attempt_line 1; "incorrect guess"; hint_line (PyBool false);
         attempt_line 2; found_line "1111"]
      /\ (getCode (p1 other_p1_game) w).1 = inr "10"
  | _ => False
  end.
Proof. vm_compute. split; reflexivity. Qed.

(** The same game in a notebook whose global [p1] is the game's own code
    maker reports the code that was set. *)
Example play_reports_own_code_when_global :
  match play sim_env 1 other_p1_game
          {| stdin := stdin other_p1_world; stdout := []; jobs := 0;
             heap := heap other_p1_world; global_p1 := Some 0%nat |} with
  | Some (inr _, w) =>
      stdout w
      = [attempt_line 1; "incorrect guess"; hint_line (PyBool false);
         attempt_line 2; found_line "10"]
  | _ => False
  end.
Proof. vm_compute. reflexivity. Qed.

End GameFacts.

(** ** The states of the ideal simulator *)

Module StateFacts.

Lemma qscale_qadd (k : Z) (a b : qstate) :
  qscale k (qadd a b) = qadd (qscale k a) (qscale k b).
Proof.
  revert b. induction a as [x|z IHz o IHo]; intros [y|z' o']; simpl;
    rewrite ?IHz, ?IHo; try done.
  f_equal. lia.
Qed.

Lemma qscale_qsub (k : Z) (a b : qstate) :
  qscale k (qsub a b) = qsub (qscale k a) (qscale k b).
Proof.
  revert b. induction a as [x|z IHz o IHo]; intros [y|z' o']; simpl;
    rewrite ?IHz, ?IHo; try done.
  f_equal. lia.
Qed.

Lemma qscale_1 (a : qstate) : qscale 1 a = a.
Proof.
  induction a as [x|z IHz o IHo]; simpl; [|by rewrite IHz, IHo].
  f_equal. lia.
Qed.

Lemma qscale_qscale (j k : Z) (a : qstate) :
  qscale j (qscale k a) = qscale (j * k) a.
Proof.
  induction a as [x|z IHz o IHo]; simpl; [|by rewrite IHz, IHo].
  f_equal. lia.
Qed.

Lemma qadd_qscale (j k : Z) (a : qstate) :
  qadd (qscale j a) (qscale k a) = qscale (j + k) a.
Proof.
  induction a as [x|z IHz o IHo]; simpl; [|by rewrite IHz, IHo].
  f_equal. lia.
Qed.

Lemma qsub_qscale (j k : Z) (a : qstate) :
  qsub (qscale j a) (qscale k a) = qscale (j - k) a.
Proof.
  induction a as [x|z IHz o IHo]; simpl; [|by rewrite IHz, IHo].
  f_equal. lia.
Qed.

Lemma qscale_X (k : Z) (q : nat) (a : qstate) :
  apply_X q (qscale k a) = qscale k (apply_X q a).
Proof.
  revert q. induction a as [x|z IHz o IHo]; intros [|q]; simpl;
    by rewrite ?IHz, ?IHo.
Qed.

Lemma qscale_H (k : Z) (q : nat) (a : qstate) :
  apply_H q (qscale k a) = qscale k (apply_H q a).
Proof.
  revert q. induction a as [x|z IHz o IHo]; intros [|q]; simpl;
    by rewrite ?IHz, ?IHo, ?qscale_qadd, ?qscale_qsub.
Qed.

Lemma qscale_select (k : Z) (c : nat) (a b : qstate) :
  select c (qscale k a) (qscale k b) = qscale k (select c a b).
Proof.
  revert c b. induction a as [x|z IHz o IHo]; intros [|c] [y|z' o']; simpl;
    by rewrite ?IHz, ?IHo.
Qed.

Lemma qscale_CX (k : Z) (c t : nat) (a : qstate) :
  apply_CX c t (qscale k a) = qscale k (apply_CX c t a).
Proof.
  revert c t. induction a as [x|z IHz o IHo]; intros [|c] [|t]; simpl;
    by rewrite ?IHz, ?IHo, ?qscale_X, ?qscale_select.
Qed.

Lemma qscale_instr (k : Z) (i : instr) (a : qstate) :
  apply_instr (qscale k a) i = qscale k (apply_instr a i).
Proof.
  destruct i; simpl; auto using qscale_X, qscale_H, qscale_CX.
Qed.

(** Every circuit is linear. *)
Lemma qscale_instrs (k : Z) (l : list instr) (a : qstate) :
  foldl apply_instr (qscale k a) l = qscale k (foldl apply_instr a l).
Proof.
  revert a. induction l as [|i l IH]; intros a; simpl; [done|].
  by rewrite qscale_instr, IH.
Qed.

(** A circuit on the qubits after the first runs in both halves of the
    state. *)
Lemma shift_instrs (l : list instr) (z o : qstate) :
  foldl apply_instr (Qubit z o) (shift <$> l)
  = Qubit (foldl apply_instr z l) (foldl apply_instr o l).
Proof.
  revert z o. induction l as [|i l IH]; intros z o; [done|].
  cbn [fmap list_fmap foldl]. rewrite <- IH. by destruct i.
Qed.

Lemma hadamards_S (n : nat) :
  H <$> seq 0 (S n) = H 0%nat :: (shift <$> (H <$> seq 0 n)).
Proof.
  cbn [seq fmap list_fmap]. f_equal.
  rewrite <- fmap_S_seq, <- !list_fmap_compose. done.
Qed.

(** The first layer of Hadamard transforms, after the flip of the last qubit. *)
Lemma hadamards_flipped (n : nat) :
  foldl apply_instr (apply_X n (ket0 (S n))) (H <$> seq 0 (S n)) = plus_minus n.
Proof.
  induction n as [|n IH]; [reflexivity|].
  rewrite hadamards_S.
  change (ket0 (S (S n))) with (Qubit (ket0 (S n)) (qscale 0 (ket0 (S n)))).
  cbn [apply_X foldl apply_instr apply_H]. rewrite qscale_X.
  set (A := apply_X n (ket0 (S n))) in *.
  rewrite <- (qscale_1 A) at 1 3.
  rewrite qadd_qscale, qsub_qscale. change (1 + 0) with 1. change (1 - 0) with 1.
  rewrite qscale_1, shift_instrs, IH. done.
Qed.

(** A flip of the last qubit changes the sign of the state. *)
Lemma X_plus_minus (n : nat) :
  apply_X n (plus_minus n) = qscale (-1) (plus_minus n).
Proof. induction n as [|n IH]; [reflexivity|]. simpl. by rewrite IH. Qed.

Lemma oracle_instrs_shift (r : list ascii) (k len : nat) :
  oracle_instrs (enumerate_from (S k) r) (S len)
  = shift <$> oracle_instrs (enumerate_from k r) len.
Proof.
  revert k. induction r as [|v r IH]; intros k; [done|].
  cbn [enumerate_from oracle_instrs flat_map fst snd].
  fold (oracle_instrs (enumerate_from (S (S k)) r) (S len)).
  fold (oracle_instrs (enumerate_from (S k) r) len).
  rewrite fmap_app, IH. by destruct (is_one v).
Qed.

(** The circuit of [encode], on the state that the first layer left. *)
Lemma oracle_plus_minus (r : list ascii) :
  foldl apply_instr (plus_minus (length r))
    (oracle_instrs (enumerate r) (length r))
  = phase_state r.
Proof.
  induction r as [|v r IH]; [reflexivity|].
  unfold enumerate in *.
  cbn [length enumerate_from oracle_instrs flat_map fst snd].
  fold (oracle_instrs (enumerate_from 1 r) (S (length r))).
  rewrite oracle_instrs_shift, foldl_app.
  cbn [plus_minus phase_state].
  destruct (is_one v); cbn [foldl apply_instr apply_CX].
  - rewrite X_plus_minus, shift_instrs, qscale_instrs, IH. done.
  - rewrite shift_instrs, IH. done.
Qed.

Lemma qadd_self (a : qstate) : qadd a a = qscale 2 a.
Proof. rewrite <- (qscale_1 a) at 1 2. by rewrite qadd_qscale. Qed.

Lemma qsub_self (a : qstate) : qsub a a = qscale 0 a.
Proof. rewrite <- (qscale_1 a) at 1 2. by rewrite qsub_qscale. Qed.

Lemma qadd_opp (a : qstate) : qadd a (qscale (-1) a) = qscale 0 a.
Proof. rewrite <- (qscale_1 a) at 1. by rewrite qadd_qscale. Qed.

Lemma qsub_opp (a : qstate) : qsub a (qscale (-1) a) = qscale 2 a.
Proof. rewrite <- (qscale_1 a) at 1. by rewrite qsub_qscale. Qed.

(** The second layer of Hadamard transforms. *)
Lemma hadamards_phase (r : list ascii) :
  foldl apply_instr (phase_state r) (H <$> seq 0 (S (length r)))
  = answer_state r.
Proof.
  induction r as [|v r IH]; [reflexivity|].
  cbn [length]. rewrite hadamards_S.
  cbn [phase_state answer_state foldl apply_instr apply_H].
  destruct (is_one v).
  - rewrite qadd_opp, qsub_opp, shift_instrs, !qscale_instrs, IH. done.
  - rewrite qadd_self, qsub_self, shift_instrs, !qscale_instrs, IH. done.
Qed.

End StateFacts.

(** ** Recovery of the code *)

Module RecoverFacts.
Import StateFacts.

(** The circuit given to [guess] enters the circuit it builds once, as a
    block, between instructions that [guess] chooses from the sizes of the
    registers. *)
Lemma guess_program_data (code : QuantumCircuit) :
  data (guess_program code)
  = guess_prefix (num_qubits code) ++ data code
      ++ guess_suffix (num_qubits code) (num_clbits code).
Proof.
  unfold guess_program, guess_prefix, guess_suffix.
  unfold Circuit.measure_ranges, Circuit.barrier, Circuit.h_range,
    Circuit.compose, Circuit.x, Circuit.new, Circuit.append_all.
  cbn [data num_qubits num_clbits]. rewrite <- !app_assoc. done.
Qed.

Lemma guess_program_sizes (code : QuantumCircuit) :
  num_qubits (guess_program code) = num_qubits code
  /\ num_clbits (guess_program code) = num_clbits code.
Proof. done. Qed.

Lemma measures_state (l1 l2 : list nat) (st : qstate) :
  foldl apply_instr st (zip_with Measure l1 l2) = st.
Proof.
  revert l2. induction l1 as [|q l1 IH]; intros [|c l2]; simpl; auto.
Qed.

(** The state at the end of the recovery circuit. *)
Lemma final_state_recover (s : string) :
  final_state (guess_program (fragment s))
  = answer_state (reverse (chars s)).
Proof.
  unfold final_state. rewrite guess_program_data.
  rewrite EncodeFacts.fragment_eq. cbn [num_qubits num_clbits data].
  unfold guess_prefix, guess_suffix.
  rewrite Nat.add_sub, Nat.add_1_r.
  assert (Hlen : String.length s = length (reverse (chars s)))
    by (by rewrite length_reverse, EncodeFacts.length_chars).
  rewrite Hlen. set (r := reverse (chars s)).
  rewrite !foldl_app. cbn [foldl apply_instr].
  rewrite hadamards_flipped, oracle_plus_minus, hadamards_phase.
  apply measures_state.
Qed.

Lemma support_qscale_0 (a : qstate) : support (qscale 0 a) = [].
Proof.
  induction a as [x|z IHz o IHo]; simpl; [done | by rewrite IHz, IHo].
Qed.

Lemma support_qscale (k : Z) (a : qstate) :
  k <> 0 -> support (qscale k a) = support a.
Proof.
  intros Hk. induction a as [x|z IHz o IHo]; simpl; [|by rewrite IHz, IHo].
  destruct (decide (x = 0)) as [->|Hx].
  - by rewrite decide_True by lia.
  - rewrite decide_False; [done|]. intros Hz%Z.mul_eq_0. lia.
Qed.

(** One basis state only has a non-zero amplitude at the end. *)
Lemma support_answer_state (r : list ascii) :
  support (answer_state r) = [(is_one <$> r) ++ [true]].
Proof.
  induction r as [|v r IH]; [reflexivity|].
  cbn [answer_state fmap list_fmap].
  destruct (is_one v); cbn [support];
    rewrite support_qscale_0, support_qscale, IH by done; reflexivity.
Qed.

Lemma measure_bit_hadamards (bits creg : list bool) (l : list nat) :
  foldl (measure_bit bits) creg (H <$> l) = creg.
Proof. revert creg. induction l as [|q l IH]; intros creg; simpl; auto. Qed.

Lemma measure_bit_oracle (bits creg : list bool) (items : list (nat * ascii))
    (len : nat) :
  foldl (measure_bit bits) creg (oracle_instrs items len) = creg.
Proof.
  revert creg. induction items as [|[i v] items IH]; intros creg; [done|].
  cbn [oracle_instrs flat_map fst snd]. fold (oracle_instrs items len).
  rewrite foldl_app, IH. by destruct (is_one v).
Qed.

(** Measuring the first [n] qubits into the first [n] classical bits. *)
Lemma measure_bit_ranges (bits creg : list bool) (n : nat) :
  (n <= length bits)%nat -> (n <= length creg)%nat ->
  foldl (measure_bit bits) creg (zip_with Measure (seq 0 n) (seq 0 n))
  = take n bits ++ drop n creg.
Proof.
  induction n as [|n IH]; intros Hb Hc; [done|].
  rewrite seq_S, zip_with_app by done. rewrite foldl_app, IH by lia.
  cbn [zip_with foldl measure_bit Nat.add].
  destruct (lookup_lt_is_Some_2 bits n) as [b Hbn]; [lia|].
  destruct (lookup_lt_is_Some_2 creg n) as [c Hcn]; [lia|].
  rewrite Hbn. cbn [from_option id].
  rewrite (take_S_r _ _ _ Hbn), (drop_S _ _ _ Hcn).
  rewrite insert_app_r_alt by (rewrite length_take; lia).
  rewrite length_take, Nat.min_l, Nat.sub_diag by lia.
  cbn [insert list_insert]. by rewrite <- app_assoc.
Qed.

Lemma bit_chars (s : string) :
  is_bitstring s = true ->
  String.string_of_list_ascii (bit_char <$> (is_one <$> chars s)) = s.
Proof.
  induction s as [|a s IH]; [done|].
  cbn [is_bitstring chars String.list_ascii_of_string fmap list_fmap
       String.string_of_list_ascii].
  intros [Ha Hs]%andb_true_iff. fold (chars s). rewrite (IH Hs). f_equal.
  apply orb_true_iff in Ha as [Ha|Ha]; apply Ascii.eqb_eq in Ha as ->; done.
Qed.

(** What the recovery circuit reads when the qubits spell the code. *)
Lemma readout_recover (s : string) :
  is_bitstring s = true ->
  readout (guess_program (fragment s))
    ((is_one <$> reverse (chars s)) ++ [true])
  = s.
Proof.
  intros Hs. unfold readout. rewrite guess_program_data.
  rewrite EncodeFacts.fragment_eq. cbn [num_qubits num_clbits data].
  unfold guess_prefix, guess_suffix. rewrite Nat.add_sub.
  rewrite !foldl_app. cbn [foldl measure_bit].
  rewrite !measure_bit_hadamards, measure_bit_oracle.
  assert (Hlen : length (is_one <$> reverse (chars s)) = String.length s)
    by (by rewrite length_fmap, length_reverse, EncodeFacts.length_chars).
  rewrite measure_bit_ranges;
    [| rewrite length_app; lia | by rewrite length_replicate].
  rewrite take_app_length' by done.
  rewrite drop_replicate, Nat.sub_diag, app_nil_r.
  unfold bitstring_of.
  rewrite <- fmap_reverse, reverse_involutive. by apply bit_chars.
Qed.

(** The code is the only outcome of the recovery circuit that has a
    non-zero probability. *)
Lemma outcomes_recover (s : string) :
  is_bitstring s = true -> outcomes (guess_program (fragment s)) = [s].
Proof.
  intros Hs. unfold outcomes.
  rewrite final_state_recover, support_answer_state.
  cbn [fmap list_fmap]. by rewrite readout_recover.
Qed.

(** Decoding a table of an ideal run of a circuit with one possible
    outcome. *)
Lemma most_frequent_single (qc : QuantumCircuit) (shots : Z) (counts : Counts)
    (y : string) :
  outcomes qc = [y] -> 0 < shots -> ideal_counts qc shots counts ->
  most_frequent counts = inr y.
Proof.
  intros Hout Hshots [Hin Hsum].
  assert (Hne : counts ≠ ∅).
  { intros ->. unfold total_shots in Hsum. rewrite map_fold_empty in Hsum. lia. }
  assert (Hkey : forall y' n', counts !! y' = Some n' -> y' = y).
  { intros y' n' Hy'. apply Hin in Hy' as [_ Hy']. rewrite Hout in Hy'.
    by apply list_elem_of_singleton in Hy'. }
  destruct (map_choose counts Hne) as (y0 & n & Hy0).
  pose proof (Hkey _ _ Hy0) as ->.
  apply (CountsFacts.most_frequent_unique counts y n Hy0).
  intros y' n' Hy' Hneq. by destruct Hneq; apply (Hkey y' n').
Qed.


(** An ideal run may report all its shots on the only possible outcome. *)
Lemma ideal_counts_single (qc : QuantumCircuit) (shots : Z) (y : string) :
  outcomes qc = [y] -> 0 < shots -> ideal_counts qc shots {[ y := shots ]}.
Proof.
  intros Hout Hshots. split.
  - intros y' n [-> ->]%lookup_singleton_Some. split; [done|].
    rewrite Hout. left.
  - unfold total_shots. rewrite map_fold_singleton. lia.
Qed.






End RecoverFacts.

(** ** [HumanGuesser.guess] *)

Module HumanGuesserFacts.

Lemma loop_done (n : nat) (lines : list string) (g : string) :
  String.length g = n ->
  HumanGuesser_loop n lines (Some g) (String.length g) = (inr g, lines).
Proof. intros Hn. destruct lines; simpl; by rewrite decide_True. Qed.

Lemma loop_skip (n : nat) (pre : list string) (g : string)
    (rest : list string) (hg : option string) (gl : nat) :
  gl <> n ->
  Forall (fun l => String.length l <> n) pre ->
  String.length g = n ->
  HumanGuesser_loop n (pre ++ g :: rest) hg gl = (inr g, rest).
Proof.
  revert hg gl. induction pre as [|l pre IH]; intros hg gl Hgl Hpre Hg.
  - cbn [app HumanGuesser_loop]. rewrite decide_False by done.
    by apply loop_done.
  - apply Forall_cons in Hpre as [Hl Hpre].
    cbn [app HumanGuesser_loop]. rewrite decide_False by done.
    by apply IH.
Qed.

Lemma loop_length (n : nat) (lines : list string) (hg : option string)
    (gl : nat) (g : string) (rest : list string) :
  (forall g', hg = Some g' -> String.length g' = gl) ->
  HumanGuesser_loop n lines hg gl = (inr g, rest) ->
  String.length g = n /\ exists read, lines = read ++ rest.
Proof.
  revert hg gl. induction lines as [|l lines IH]; intros hg gl Hhg Hloop.
  - cbn [HumanGuesser_loop] in Hloop.
    destruct (decide (gl = n)) as [->|]; [|done].
    destruct hg as [g'|]; [|done]. inversion Hloop; subst.
    split; [by apply Hhg | by exists []].
  - cbn [HumanGuesser_loop] in Hloop.
    destruct (decide (gl = n)) as [->|].
    + destruct hg as [g'|]; [|done]. inversion Hloop; subst.
      split; [by apply Hhg | by exists []].
    + apply IH in Hloop as [Hlen [read ->]]; [|by intros ? [= <-]].
      split; [done|]. by exists (l :: read).
Qed.

(** X1: the human guesser returns the first line typed that has as many
    characters as the circuit has classical bits; the lines typed before
    it, of other lengths, are read and dropped, and the lines after it are
    left to be read. *)
Theorem HumanGuesser_first_fit (code : QuantumCircuit) (w : world)
    (pre : list string) (g : string) (rest : list string) :
  num_clbits code <> 0%nat ->
  stdin w = pre ++ g :: rest ->
  Forall (fun l => String.length l <> num_clbits code) pre ->
  String.length g = num_clbits code ->
  HumanGuesser_guess code w = (inr g, set_stdin w rest).
Proof.
  intros Hn Hin Hpre Hg. unfold HumanGuesser_guess. rewrite Hin.
  rewrite (loop_skip (num_clbits code) pre g rest None 0); done.
Qed.

Lemma HumanGuesser_first_fit_witness :
  num_clbits (fragment "10") <> 0%nat
  /\ stdin (set_stdin empty_world ["1"; "101"; "01"; "10"])
     = ["1"; "101"] ++ "01" :: ["10"]
  /\ Forall (fun l => String.length l <> num_clbits (fragment "10"))
       ["1"; "101"]
  /\ String.length "01" = num_clbits (fragment "10")
  /\ HumanGuesser_guess (fragment "10")
       (set_stdin empty_world ["1"; "101"; "01"; "10"])
     = (inr "01",
        set_stdin (set_stdin empty_world ["1"; "101"; "01"; "10"]) ["10"]).
Proof.
  assert (H1 : num_clbits (fragment "10") <> 0%nat) by (simpl; lia).
  assert (H2 : stdin (set_stdin empty_world ["1"; "101"; "01"; "10"])
               = ["1"; "101"] ++ "01" :: ["10"]) by reflexivity.
  assert (H3 : Forall (fun l => String.length l <> num_clbits (fragment "10"))
                 ["1"; "101"])
    by (repeat constructor; simpl; lia).
  assert (H4 : String.length "01" = num_clbits (fragment "10")) by reflexivity.
  split; [exact H1|]. split; [exact H2|]. split; [exact H3|].
  split; [exact H4|].
  exact (HumanGuesser_first_fit (fragment "10")
           (set_stdin empty_world ["1"; "101"; "01"; "10"])
           ["1"; "101"] "01" ["10"] H1 H2 H3 H4).
Defined.

(** X2: what the human guesser returns for the circuit of a code has the
    length of that code, so that [check] of it never fails: it returns the
    hint and whether the guess is the code. *)
Theorem HumanGuesser_guess_checked (sh : string -> list string) (s : string)
    (w w' : world) (g : string) :
  HumanGuesser_guess (fragment s) w = (inr g, w') ->
  String.length g = String.length s
  /\ QuantumEncoder.check sh (encoder_of s) g
     = inr (hint_value sh s g, String.eqb s g).
Proof.
  unfold HumanGuesser_guess. intros Hg.
  destruct (HumanGuesser_loop (num_clbits (fragment s)) (stdin w) None 0)
    as [r rest] eqn:Hloop.
  inversion Hg; subst.
  apply loop_length in Hloop as [Hlen _]; [|done].
  rewrite EncodeFacts.fragment_eq in Hlen. cbn [num_clbits] in Hlen.
  split; [done|].
  rewrite CheckFacts.check_spec, CheckFacts.one_past_end_le by lia. done.
Qed.

Lemma HumanGuesser_guess_checked_witness :
  HumanGuesser_guess (fragment "10") (set_stdin empty_world ["101"; "11"])
  = (inr "11", set_stdin empty_world [])
  /\ String.length "11" = String.length "10"
  /\ QuantumEncoder.check sh_not_found (encoder_of "10") "11"
     = inr (hint_value sh_not_found "10" "11", String.eqb "10" "11").
Proof.
  assert (H1 : HumanGuesser_guess (fragment "10")
                 (set_stdin empty_world ["101"; "11"])
               = (inr "11", set_stdin empty_world [])) by reflexivity.
  split; [exact H1|].
  exact (HumanGuesser_guess_checked sh_not_found "10"
           (set_stdin empty_world ["101"; "11"]) (set_stdin empty_world [])
           "11" H1).
Defined.

(** X3: for a circuit without classical bits the loop of the human guesser
    is not entered: nothing is read, and the [return] finds [humanGuess]
    unbound. *)
Theorem HumanGuesser_no_clbits (code : QuantumCircuit) (w : world) :
  num_clbits code = 0%nat ->
  (HumanGuesser_guess code w).1 = inl UnboundLocalError
  /\ stdin (HumanGuesser_guess code w).2 = stdin w.
Proof.
  intros Hn. unfold HumanGuesser_guess. rewrite Hn.
  destruct (stdin w); simpl; done.
Qed.

Lemma HumanGuesser_no_clbits_witness :
  num_clbits (fragment "") = 0%nat
  /\ (HumanGuesser_guess (fragment "") (set_stdin empty_world ["1"])).1
     = inl UnboundLocalError
  /\ stdin (HumanGuesser_guess (fragment "") (set_stdin empty_world ["1"])).2
     = stdin (set_stdin empty_world ["1"]).
Proof.
  split; [reflexivity|].
  apply (HumanGuesser_no_clbits (fragment "") (set_stdin empty_world ["1"])).
  reflexivity.
Defined.

End HumanGuesserFacts.

(** ** [HumanSetter.setCode] and [codemaker.setCode] on a list *)

Module HumanSetterFacts.

Lemma join_length (lines : list string) :
  String.length (join lines) = sum_list (String.length <$> lines).
Proof.
  induction lines as [|l lines IH]; [done|].
  cbn [join foldr fmap list_fmap sum_list]. fold (join lines).
  by rewrite string_app_length, IH.
Qed.

(** X4: [codemaker.setCode] called with a list of strings, as
    [HumanSetter] calls it, drops the code stored before and stores the
    concatenation of the items, whose length is the sum of theirs: an item
    of several characters, or of none, is taken as it is. *)
Theorem setCode_list_joins (self : Codemaker.codemaker) (l : list string) :
  exists self',
    Codemaker.setCode self (PyList l) = inr self'
    /\ (Codemaker.getCode self').1 = join l
    /\ String.length (Codemaker.getCode self').1
       = sum_list (String.length <$> l).
Proof.
  exists {| Codemaker.code := join l |}.
  split; [apply CodemakerFacts.setCode_list|].
  split; [done | apply join_length].
Qed.

Lemma read_bits_spec (lines rest acc : list string) (w : world) :
  stdin w = lines ++ rest ->
  read_bits (length lines) acc w = (inr (acc ++ lines), set_stdin w rest).
Proof.
  revert acc w. induction lines as [|l lines IH]; intros acc w Hin.
  - cbn [length read_bits app] in *. unfold ret. rewrite app_nil_r.
    rewrite <- Hin. by destruct w.
  - cbn [length read_bits]. unfold bind, input. rewrite Hin. cbn [app].
    rewrite (IH (acc ++ [l]) (set_stdin w (lines ++ rest))) by done.
    by rewrite <- app_assoc.
Qed.

(** X5: [setCode(length)] on a human code maker reads exactly [length]
    lines (none when [length] is not positive), stores their concatenation
    as the code of that code maker, and clears what was printed; the other
    code makers, the lines not yet read and the backend are left alone. *)
Theorem HumanSetter_setCode_reads (env : environment) (p : nat) (n : Z)
    (w : world) (lines rest : list string) (o : Codemaker.codemaker) :
  heap w !! p = Some (HumanSetter, o) ->
  stdin w = lines ++ rest ->
  length lines = Z.to_nat n ->
  setCode env p n w
  = (inr tt,
     {| stdin := rest; stdout := []; jobs := jobs w;
        heap := <[p := (HumanSetter, {| Codemaker.code := join lines |})]>
                  (heap w);
        global_p1 := global_p1 w |}).
Proof.
  intros Hp Hin Hlen. unfold setCode, bind, deref. rewrite Hp.
  cbn [from_option id fst]. unfold HumanSetter_setCode, bind.
  rewrite <- Hlen, (read_bits_spec lines rest [] w Hin).
  unfold deref. cbn [set_stdin heap]. rewrite Hp. cbn [from_option id snd fst].
  unfold lift. rewrite CodemakerFacts.setCode_list.
  reflexivity.
Qed.

Lemma HumanSetter_setCode_reads_witness :
  heap (set_stdin one_setter_world ["1"; "0"; "11"]) !! 0%nat
  = Some (HumanSetter, Codemaker.init)
  /\ stdin (set_stdin one_setter_world ["1"; "0"; "11"]) = ["1"; "0"] ++ ["11"]
  /\ length ["1"; "0"] = Z.to_nat 2
  /\ setCode sim_env 0 2 (set_stdin one_setter_world ["1"; "0"; "11"])
     = (inr tt,
        {| stdin := ["11"]; stdout := [];
           jobs := jobs (set_stdin one_setter_world ["1"; "0"; "11"]);
           heap := <[0%nat := (HumanSetter,
                               {| Codemaker.code := join ["1"; "0"] |})]>
                     (heap (set_stdin one_setter_world ["1"; "0"; "11"]));
           global_p1 :=
             global_p1 (set_stdin one_setter_world ["1"; "0"; "11"]) |}).
Proof.
  assert (H1 : heap (set_stdin one_setter_world ["1"; "0"; "11"]) !! 0%nat
               = Some (HumanSetter, Codemaker.init)) by reflexivity.
  assert (H2 : stdin (set_stdin one_setter_world ["1"; "0"; "11"])
               = ["1"; "0"] ++ ["11"]) by reflexivity.
  assert (H3 : length ["1"; "0"] = Z.to_nat 2) by reflexivity.
  split; [exact H1|]. split; [exact H2|]. split; [exact H3|].
  exact (HumanSetter_setCode_reads sim_env 0 2
           (set_stdin one_setter_world ["1"; "0"; "11"]) ["1"; "0"] ["11"]
           Codemaker.init H1 H2 H3).
Defined.

End HumanSetterFacts.

(** ** [Game.play] with a human code maker *)

Module PlayFacts.

(** The world in which the guessing starts: the code is set, the output
    cleared, and the first attempt announced. *)
Lemma play_start_human_setter (env : environment) (self : Game) (w : world)
    (line : string) (n : Z) (bits rest : list string)
    (o : Codemaker.codemaker) :
  heap w !! p1 self = Some (HumanSetter, o) ->
  stdin w = line :: bits ++ rest ->
  env_int env line = inr n ->
  length bits = Z.to_nat n ->
  play_start env self w
  = match guess env (p2 self) (fragment (join bits))
            {| stdin := rest; stdout := [attempt_line 1]; jobs := jobs w;
               heap := <[p1 self := (HumanSetter,
                                     {| Codemaker.code := join bits |})]>
                         (heap w);
               global_p1 := global_p1 w |} with
    | (inl e, w2) => (inl e, w2)
    | (inr g, w2) =>
        match QuantumEncoder.check (env_getoutput env)
                (encoder_of (join bits)) g with
        | inl e => (inl e, w2)
        | inr hc =>
            (inr (encoder_of (join bits), fragment (join bits), hc.1, hc.2),
             w2)
        end
    end.
Proof.
  intros Hp Hin Hint Hlen. unfold play_start.
  unfold bind at 1. unfold input. rewrite Hin.
  unfold bind at 1. unfold lift at 1. rewrite Hint.
  unfold bind at 1.
  rewrite (HumanSetterFacts.HumanSetter_setCode_reads env (p1 self) n
             (set_stdin w (bits ++ rest)) bits rest o Hp eq_refl Hlen).
  unfold bind at 1. rewrite GameFacts.getCode_eq.
  cbn [heap set_stdin jobs global_p1]. rewrite lookup_insert_eq.
  cbn [from_option id snd Codemaker.code].
  change (QuantumEncoder.encode (encoder self) (join bits))
    with (fragment (join bits), encoder_of (join bits)).
  cbv iota beta.
  unfold bind at 1. unfold print at 1. cbn [set_stdout stdin stdout jobs heap global_p1 app].
  unfold bind.
  destruct (guess env (p2 self) (fragment (join bits)) _) as [[e|g] w2];
    [done|].
  unfold lift, ret.
  by destruct (QuantumEncoder.check (env_getoutput env)
                 (encoder_of (join bits)) g).
Qed.

(** The rounds of the loop when the guesser is a human who types guesses
    of the right length, the last of which is the code. *)
Lemma play_loop_humans (env : environment) (self : Game) (s : string)
    (wrongs : list string) :
  p2 self = HumanGuesser ->
  String.length s <> 0%nat ->
  Forall (fun g => String.length g = String.length s /\ g <> s) wrongs ->
  forall (fuel : nat) (attempts : Z) (hint : pyval) (w : world)
         (rest : list string),
    stdin w = wrongs ++ s :: rest ->
    (length wrongs < fuel)%nat ->
    play_loop env fuel self (encoder_of s) (fragment s) attempts hint false w
    = Some (inr (attempts + 1 + Z.of_nat (length wrongs)),
            {| stdin := rest;
               stdout := stdout w
                 ++ round_lines attempts
                      (hint :: (hint_value (env_getoutput env) s <$> wrongs));
               jobs := jobs w; heap := heap w; global_p1 := global_p1 w |}).
Proof.
  intros Hp2 Hs Hwrongs.
  assert (Hclbits : num_clbits (fragment s) = String.length s)
    by (by rewrite EncodeFacts.fragment_eq).
  induction Hwrongs as [|g wrongs [Hlen Hne] Hwrongs IH];
    intros fuel attempts hint w rest Hin Hfuel.
  - destruct fuel as [|fuel]; [simpl in Hfuel; lia|].
    cbn [play_loop]. rewrite GameFacts.play_round_eq. cbv zeta.
    rewrite Hp2. cbn [guess].
    rewrite (HumanGuesserFacts.HumanGuesser_first_fit (fragment s) _ [] s rest);
      [|lia | exact Hin | constructor | lia].
    rewrite CheckFacts.check_spec, CheckFacts.one_past_end_le by lia.
    cbn [fst snd]. rewrite String.eqb_refl.
    rewrite GameFacts.play_loop_matched.
    cbn [length fmap list_fmap Z.of_nat]. rewrite Z.add_0_r.
    reflexivity.
  - destruct fuel as [|fuel]; [simpl in Hfuel; lia|].
    cbn [play_loop]. rewrite GameFacts.play_round_eq. cbv zeta.
    rewrite Hp2. cbn [guess].
    rewrite (HumanGuesserFacts.HumanGuesser_first_fit (fragment s) _ [] g
               (wrongs ++ s :: rest));
      [|lia | exact Hin | constructor | lia].
    rewrite CheckFacts.check_spec, CheckFacts.one_past_end_le by lia.
    cbn [fst snd].
    assert (Heqb : String.eqb s g = false) by (apply String.eqb_neq; congruence).
    rewrite Heqb.
    rewrite (IH fuel (attempts + 1) _ _ rest); [|reflexivity | simpl in Hfuel; lia].
    cbn [set_stdin set_stdout stdin stdout jobs heap global_p1].
    cbn [length fmap list_fmap]. rewrite <- app_assoc.
    do 3 f_equal. lia.
Qed.

(** X6: a whole game between two humans.  The first line typed is the
    length, the next [length] lines are the code, and every line after
    them is a guess of the length of the code, all wrong but the last.
    With a round of the loop for each wrong guess, [play] ends: it has
    printed the first attempt, then for each wrong guess that it was
    incorrect, its hint and the number of the next attempt, and it
    finishes with its last statement; when the global name [p1] is bound to
    the code maker of the game, that statement prints the code that was
    typed.  The code is left in the code maker and the lines after the
    right guess are not read. *)
Theorem play_humans (env : environment) (fuel : nat) (self : Game)
    (w : world) (line : string) (n : Z) (bits wrongs rest : list string)
    (o : Codemaker.codemaker) :
  p2 self = HumanGuesser ->
  heap w !! p1 self = Some (HumanSetter, o) ->
  env_int env line = inr n ->
  length bits = Z.to_nat n ->
  String.length (join bits) <> 0%nat ->
  stdin w = line :: bits ++ wrongs ++ join bits :: rest ->
  Forall (fun g => String.length g = String.length (join bits)
                   /\ g <> join bits) wrongs ->
  (length wrongs <= fuel)%nat ->
  let w' :=
    {| stdin := rest;
       stdout := attempt_line 1
         :: round_lines 1 (hint_value (env_getoutput env) (join bits) <$> wrongs);
       jobs := jobs w;
       heap := <[p1 self := (HumanSetter, {| Codemaker.code := join bits |})]>
                 (heap w);
       global_p1 := global_p1 w |} in
  play env fuel self w = Some (play_end w')
  /\ (global_p1 w = Some (p1 self) ->
      play_end w'
      = (inr tt, set_stdout w' (stdout w' ++ [found_line (join bits)]))).
Proof.
  intros Hp2 Hp Hint Hlen Hs Hin Hwrongs Hfuel. cbv zeta. split.
  - unfold play.
    rewrite (play_start_human_setter env self w line n bits
               (wrongs ++ join bits :: rest) o Hp Hin Hint Hlen).
    assert (Hclbits : num_clbits (fragment (join bits))
                      = String.length (join bits))
      by (by rewrite EncodeFacts.fragment_eq).
    rewrite Hp2. cbn [guess].
    destruct Hwrongs as [|g wrongs [Hg Hne] Hwrongs].
    + rewrite (HumanGuesserFacts.HumanGuesser_first_fit _ _ [] (join bits) rest);
        [|lia | reflexivity | constructor | lia].
      rewrite CheckFacts.check_spec, CheckFacts.one_past_end_le by lia.
      cbn [fst snd]. rewrite String.eqb_refl.
      rewrite GameFacts.play_loop_matched. reflexivity.
    + rewrite (HumanGuesserFacts.HumanGuesser_first_fit _ _ [] g
                 (wrongs ++ join bits :: rest));
        [|lia | reflexivity | constructor | lia].
      rewrite CheckFacts.check_spec, CheckFacts.one_past_end_le by lia.
      cbn [fst snd].
      assert (Heqb : String.eqb (join bits) g = false)
        by (apply String.eqb_neq; congruence).
      rewrite Heqb.
      rewrite (play_loop_humans env self (join bits) wrongs Hp2 Hs Hwrongs
                 fuel 1 _ _ rest); [|reflexivity | simpl in Hfuel; lia].
      reflexivity.
  - intros Hglobal.
    apply (GameFacts.play_end_global _ (p1 self)); [done|].
    rewrite GameFacts.getCode_eq. cbn [fst heap].
    by rewrite lookup_insert_eq.
Qed.

Lemma play_humans_witness :
  p2 other_p1_game = HumanGuesser
  /\ heap humans_world !! p1 other_p1_game = Some (HumanSetter, Codemaker.init)
  /\ env_int sim_env "2" = inr 2
  /\ length ["1"; "0"] = Z.to_nat 2
  /\ String.length (join ["1"; "0"]) <> 0%nat
  /\ stdin humans_world
     = "2" :: ["1"; "0"] ++ ["01"] ++ join ["1"; "0"] :: ["again"]
  /\ Forall (fun g => String.length g = String.length (join ["1"; "0"])
                      /\ g <> join ["1"; "0"]) ["01"]
  /\ (length ["01"] <= 1)%nat
  /\ let w' :=
       {| stdin := ["again"];
          stdout := attempt_line 1
            :: round_lines 1
                 (hint_value (env_getoutput sim_env) (join ["1"; "0"])
                    <$> ["01"]);
          jobs := jobs humans_world;
          heap := <[p1 other_p1_game
                    := (HumanSetter, {| Codemaker.code := join ["1"; "0"] |})]>
                    (heap humans_world);
          global_p1 := global_p1 humans_world |} in
     play sim_env 1 other_p1_game humans_world = Some (play_end w')
     /\ (global_p1 humans_world = Some (p1 other_p1_game) ->
         play_end w'
         = (inr tt,
            set_stdout w' (stdout w' ++ [found_line (join ["1"; "0"])]))).
Proof.
  assert (H1 : p2 other_p1_game = HumanGuesser) by reflexivity.
  assert (H2 : heap humans_world !! p1 other_p1_game
               = Some (HumanSetter, Codemaker.init)) by reflexivity.
  assert (H3 : env_int sim_env "2" = inr 2) by reflexivity.
  assert (H4 : length ["1"; "0"] = Z.to_nat 2) by reflexivity.
  assert (H5 : String.length (join ["1"; "0"]) <> 0%nat) by (simpl; lia).
  assert (H6 : stdin humans_world
               = "2" :: ["1"; "0"] ++ ["01"] ++ join ["1"; "0"] :: ["again"])
    by reflexivity.
  assert (H7 : Forall (fun g => String.length g = String.length (join ["1"; "0"])
                                /\ g <> join ["1"; "0"]) ["01"])
    by (repeat constructor; discriminate).
  assert (H8 : (length ["01"] <= 1)%nat) by (simpl; lia).
  split; [exact H1|]. split; [exact H2|]. split; [exact H3|].
  split; [exact H4|]. split; [exact H5|]. split; [exact H6|].
  split; [exact H7|]. split; [exact H8|].
  exact (play_humans sim_env 1 other_p1_game humans_world "2" 2 ["1"; "0"]
           ["01"] ["again"] Codemaker.init H1 H2 H3 H4 H5 H6 H7 H8).
Defined.

(** X7: the loop of [play] has no bound on the attempts.  Against a quantum
    guesser whose backend answers every job with the same table, when the
    outcome decoded from that table is checked and is not the code, the
    loop is still running after any number of rounds. *)
Theorem play_loop_never_ends (env : environment) (self : Game)
    (enc : QuantumEncoder.QuantumEncoder) (code : QuantumCircuit)
    (shots : Z) (counts : Counts) (g : string) (h : pyval) :
  p2 self = QuantumGuesser shots ->
  (forall k, env_execute env k (guess_program code) shots = inr counts) ->
  most_frequent counts = inr g ->
  QuantumEncoder.check (env_getoutput env) enc g = inr (h, false) ->
  forall (fuel : nat) (attempts : Z) (hint : pyval) (w : world),
    play_loop env fuel self enc code attempts hint false w = None.
Proof.
  intros Hp2 Hexec Hmost Hcheck fuel.
  induction fuel as [|fuel IH]; intros attempts hint w; [done|].
  cbn [play_loop]. rewrite GameFacts.play_round_eq. cbv zeta.
  rewrite Hp2, GuessFacts.QuantumGuesser_guess_eq, Hexec.
  cbn [rbind]. rewrite Hmost, Hcheck. cbn [fst snd]. apply IH.
Qed.

Lemma play_loop_never_ends_witness :
  p2 {| p1 := 0; p2 := QuantumGuesser 2; encoder := QuantumEncoder.init |}
  = QuantumGuesser 2
  /\ (forall k, env_execute wrong_env k (guess_program (fragment "10")) 2
                = inr wrong_counts)
  /\ most_frequent wrong_counts = inr "01"
  /\ QuantumEncoder.check (env_getoutput wrong_env) (encoder_of "10") "01"
     = inr (PyBool false, false)
  /\ forall (fuel : nat) (attempts : Z) (hint : pyval) (w : world),
       play_loop wrong_env fuel
         {| p1 := 0; p2 := QuantumGuesser 2; encoder := QuantumEncoder.init |}
         (encoder_of "10") (fragment "10") attempts hint false w
       = None.
Proof.
  assert (H1 : p2 {| p1 := 0; p2 := QuantumGuesser 2;
                     encoder := QuantumEncoder.init |} = QuantumGuesser 2)
    by reflexivity.
  assert (H2 : forall k, env_execute wrong_env k (guess_program (fragment "10")) 2
                         = inr wrong_counts) by reflexivity.
  assert (H3 : most_frequent wrong_counts = inr "01")
    by (vm_compute; reflexivity).
  assert (H4 : QuantumEncoder.check (env_getoutput wrong_env) (encoder_of "10")
                 "01" = inr (PyBool false, false)) by reflexivity.
  split; [exact H1|]. split; [exact H2|]. split; [exact H3|].
  split; [exact H4|].
  exact (play_loop_never_ends wrong_env _ (encoder_of "10") (fragment "10") 2
           wrong_counts "01" (PyBool false) H1 H2 H3 H4).
Defined.

(** X8: a human code maker against the quantum guesser, on a backend that
    answers the job of the guesser as an ideal simulator may.  When the
    lines typed for the code spell a string of 0 and 1, the first guess is
    the code: [play] submits one job, prints the first attempt only, does
    not enter its loop, whatever the bound on the rounds, and finishes with
    its last statement. *)
Theorem play_quantum_guesser_first_attempt (env : environment) (fuel : nat)
    (self : Game) (w : world) (line : string) (n : Z)
    (bits rest : list string) (o : Codemaker.codemaker) (shots : Z)
    (counts : Counts) :
  p2 self = QuantumGuesser shots ->
  heap w !! p1 self = Some (HumanSetter, o) ->
  env_int env line = inr n ->
  length bits = Z.to_nat n ->
  is_bitstring (join bits) = true ->
  stdin w = line :: bits ++ rest ->
  0 < shots ->
  env_execute env (jobs w) (guess_program (fragment (join bits))) shots
  = inr counts ->
  ideal_counts (guess_program (fragment (join bits))) shots counts ->
  play env fuel self w
  = Some (play_end
            {| stdin := rest; stdout := [attempt_line 1]; jobs := S (jobs w);
               heap := <[p1 self := (HumanSetter,
                                     {| Codemaker.code := join bits |})]>
                         (heap w);
               global_p1 := global_p1 w |}).
Proof.
  intros Hp2 Hp Hint Hlen Hbits Hin Hshots Hexec Hideal. unfold play.
  rewrite (play_start_human_setter env self w line n bits rest o
             Hp Hin Hint Hlen).
  rewrite Hp2, GuessFacts.QuantumGuesser_guess_eq. cbn [jobs].
  rewrite Hexec. cbn [rbind].
  rewrite (RecoverFacts.most_frequent_single _ shots counts (join bits)
             (RecoverFacts.outcomes_recover _ Hbits) Hshots Hideal).
  rewrite CheckFacts.check_spec, CheckFacts.one_past_end_le by lia.
  cbn [fst snd]. rewrite String.eqb_refl.
  rewrite GameFacts.play_loop_matched. reflexivity.
Qed.

Lemma play_quantum_guesser_first_attempt_witness :
  p2 human_quantum_game = QuantumGuesser 1
  /\ heap human_quantum_world !! p1 human_quantum_game
     = Some (HumanSetter, Codemaker.init)
  /\ env_int sim_env "3" = inr 3
  /\ length ["1"; "0"; "1"] = Z.to_nat 3
  /\ is_bitstring (join ["1"; "0"; "1"]) = true
  /\ stdin human_quantum_world = "3" :: ["1"; "0"; "1"] ++ []
  /\ 0 < 1
  /\ env_execute sim_env (jobs human_quantum_world)
       (guess_program (fragment (join ["1"; "0"; "1"]))) 1
     = inr {[ "101" := 1 ]}
  /\ ideal_counts (guess_program (fragment (join ["1"; "0"; "1"]))) 1
       {[ "101" := 1 ]}
  /\ play sim_env 0 human_quantum_game human_quantum_world
     = Some (play_end
               {| stdin := []; stdout := [attempt_line 1];
                  jobs := S (jobs human_quantum_world);
                  heap := <[p1 human_quantum_game
                            := (HumanSetter,
                                {| Codemaker.code := join ["1"; "0"; "1"] |})]>
                            (heap human_quantum_world);
                  global_p1 := global_p1 human_quantum_world |}).
Proof.
  assert (H1 : p2 human_quantum_game = QuantumGuesser 1) by reflexivity.
  assert (H2 : heap human_quantum_world !! p1 human_quantum_game
               = Some (HumanSetter, Codemaker.init)) by reflexivity.
  assert (H3 : env_int sim_env "3" = inr 3) by reflexivity.
  assert (H4 : length ["1"; "0"; "1"] = Z.to_nat 3) by reflexivity.
  assert (H5 : is_bitstring (join ["1"; "0"; "1"]) = true) by reflexivity.
  assert (H6 : stdin human_quantum_world = "3" :: ["1"; "0"; "1"] ++ [])
    by reflexivity.
  assert (H7 : 0 < 1) by lia.
  assert (H8 : env_execute sim_env (jobs human_quantum_world)
                 (guess_program (fragment (join ["1"; "0"; "1"]))) 1
               = inr {[ "101" := 1 ]}) by (vm_compute; reflexivity).
  assert (H9 : ideal_counts (guess_program (fragment (join ["1"; "0"; "1"]))) 1
                 {[ "101" := 1 ]})
    by (apply RecoverFacts.ideal_counts_single; [vm_compute; reflexivity | lia]).
  split; [exact H1|]. split; [exact H2|]. split; [exact H3|].
  split; [exact H4|]. split; [exact H5|]. split; [exact H6|].
  split; [exact H7|]. split; [exact H8|]. split; [exact H9|].
  exact (play_quantum_guesser_first_attempt sim_env 0 human_quantum_game
           human_quantum_world "3" 3 ["1"; "0"; "1"] [] Codemaker.init 1
           {[ "101" := 1 ]} H1 H2 H3 H4 H5 H6 H7 H8 H9).
Defined.

End PlayFacts.

(** ** The circuit of [QuantumEncoder.encode] *)

Module FragmentFacts.

Lemma elem_of_oracle_instrs (items : list (nat * ascii)) (len : nat)
    (i : instr) :
  i ∈ oracle_instrs items len
  <-> exists c v, (c, v) ∈ items /\ is_one v = true /\ i = CX c len.
Proof.
  induction items as [|[c v] items IH].
  - split; [by intros ?%elem_of_nil | by intros (c & v & ?%elem_of_nil & _)].
  - cbn [oracle_instrs flat_map fst snd]. fold (oracle_instrs items len).
    rewrite elem_of_app, IH. split.
    + intros [Hhere|(c' & v' & Hin & Hone & ->)].
      * destruct (is_one v) eqn:Hv; [|by apply elem_of_nil in Hhere].
        apply list_elem_of_singleton in Hhere as ->.
        exists c, v. split; [left | done].
      * exists c', v'. split; [by right | done].
    + intros (c' & v' & Hin & Hone & ->).
      apply elem_of_cons in Hin as [[= -> ->]|Hin].
      * left. rewrite Hone. left.
      * right. by exists c', v'.
Qed.

Lemma elem_of_enumerate_from {A} (k : nat) (l : list A) (c : nat) (v : A) :
  (c, v) ∈ enumerate_from k l <-> (k <= c)%nat /\ l !! (c - k)%nat = Some v.
Proof.
  revert k. induction l as [|a l IH]; intros k; cbn [enumerate_from].
  - split; [by intros ?%elem_of_nil | by intros [_ ?]].
  - rewrite elem_of_cons, IH. split.
    + intros [[= -> ->]|[Hle Hl]].
      * rewrite Nat.sub_diag. split; [lia | done].
      * split; [lia|]. by replace (c - k)%nat with (S (c - S k)) by lia.
    + intros [Hle Hl]. destruct (decide (c = k)) as [->|Hne].
      * left. rewrite Nat.sub_diag in Hl. by inversion Hl.
      * right. split; [lia|].
        by replace (c - k)%nat with (S (c - S k)) in Hl by lia.
Qed.

Lemma chars_lookup (s : string) (j : nat) : chars s !! j = String.get j s.
Proof.
  revert j. induction s as [|a s IH]; intros [|j]; cbn; try done.
Qed.

Lemma filter_ext_in {A} (P1 P2 : A -> Prop) `{!forall x, Decision (P1 x)}
    `{!forall x, Decision (P2 x)} (l : list A) :
  (forall x, x ∈ l -> P1 x <-> P2 x) -> filter P1 l = filter P2 l.
Proof.
  induction l as [|a l IH]; intros Hext; [done|].
  rewrite !filter_cons, IH by (intros x Hx; apply Hext; by right).
  destruct (decide (P1 a)) as [Ha1|Ha1], (decide (P2 a)) as [Ha2|Ha2];
    try done.
  - destruct Ha2. by apply (Hext a); [left|].
  - destruct Ha1. by apply (Hext a); [left|].
Qed.

(** The instructions that the loop of [encode] appends, in the order of
    the items. *)
Lemma oracle_instrs_filter (r : list ascii) (k len : nat) :
  oracle_instrs (enumerate_from k r) len
  = (fun c => CX c len)
      <$> filter (fun c => r !! (c - k)%nat = Some "1"%char) (seq k (length r)).
Proof.
  revert k. induction r as [|v r IH]; intros k; [done|].
  cbn [enumerate_from oracle_instrs flat_map fst snd length seq].
  fold (oracle_instrs (enumerate_from (S k) r) len).
  rewrite IH, filter_cons, Nat.sub_diag. cbn [lookup list_lookup].
  rewrite (filter_ext_in (fun c => (v :: r) !! (c - k)%nat = Some "1"%char)
             (fun c => r !! (c - S k)%nat = Some "1"%char)).
  - unfold is_one. destruct (Ascii.eqb_spec v "1") as [->|Hv].
    + by rewrite decide_True.
    + by rewrite decide_False by congruence.
  - intros c Hc%elem_of_seq.
    by replace (c - k)%nat with (S (c - S k)) by lia.
Qed.

(** X9: the circuit that [encode] returns for a code of [L] characters has
    [L+1] qubits and [L] classical bits, and its instructions are, in this
    order and each once, the controlled flips of qubit [L] by the qubits
    [c], from 0 upwards, such that the code has a ['1'] at position
    [L-1-c]: the last character of the code controls from qubit 0, and a
    character other than ['1'] adds no instruction. *)
Theorem encode_instructions (s : string) :
  fragment s
  = {| num_qubits := String.length s + 1;
       num_clbits := String.length s;
       data :=
         (fun c => CX c (String.length s))
           <$> filter
                 (fun c => String.get (String.length s - 1 - c) s
                           = Some "1"%char)
                 (seq 0 (String.length s)) |}.
Proof.
  rewrite EncodeFacts.fragment_eq. f_equal. unfold enumerate.
  assert (Hlen : length (chars s) = String.length s)
    by apply EncodeFacts.length_chars.
  rewrite oracle_instrs_filter, length_reverse, Hlen. f_equal.
  apply filter_ext_in. intros c Hc%elem_of_seq.
  rewrite Nat.sub_0_r, reverse_lookup, Hlen, chars_lookup by lia.
  by replace (String.length s - S c)%nat with (String.length s - 1 - c)%nat
    by lia.
Qed.

Lemma common_parity_nil_r (a : list ascii) : common_parity a [] = false.
Proof. by destruct a. Qed.

Lemma parity_enumerate_from (r : list ascii) (k : nat) (bits : list bool) :
  parity (enumerate_from k r) bits = common_parity r (drop k bits).
Proof.
  revert k. induction r as [|v r IH]; intros k; [done|].
  cbn [enumerate_from parity foldr fst snd].
  fold (parity (enumerate_from (S k) r) bits). rewrite IH.
  destruct (bits !! k) as [x|] eqn:Hk.
  - rewrite (drop_S _ _ _ Hk). done.
  - apply lookup_ge_None in Hk.
    rewrite !drop_ge by lia. cbn [from_option id common_parity].
    rewrite common_parity_nil_r. by rewrite andb_false_r.
Qed.

Lemma common_parity_app (a1 a2 : list ascii) (b1 b2 : list bool) :
  length a1 = length b1 ->
  common_parity (a1 ++ a2) (b1 ++ b2)
  = xorb (common_parity a1 b1) (common_parity a2 b2).
Proof.
  revert b1. induction a1 as [|v a1 IH]; intros [|x b1] Hlen;
    simplify_eq/=; [done|].
  rewrite IH by done. by rewrite xorb_assoc.
Qed.

Lemma common_parity_reverse (a : list ascii) (b : list bool) :
  length a = length b ->
  common_parity (reverse a) (reverse b) = common_parity a b.
Proof.
  revert b. induction a as [|v a IH]; intros [|x b] Hlen; simplify_eq/=;
    [done|].
  rewrite !reverse_cons, common_parity_app by (by rewrite !length_reverse).
  rewrite IH by done. cbn [common_parity].
  rewrite xorb_false_r. apply xorb_comm.
Qed.

Lemma overlap_common_parity (s g : string) :
  Nat.odd (overlap s g) = common_parity (chars s) (is_one <$> chars g).
Proof.
  revert g. induction s as [|a s IH]; intros [|b g]; try done.
  cbn [overlap chars String.list_ascii_of_string fmap list_fmap common_parity].
  fold (chars s). fold (chars g). rewrite Nat.odd_add, IH.
  by destruct (is_one a), (is_one b).
Qed.

Lemma is_one_bit_char (l : list bool) : is_one <$> (bit_char <$> l) = l.
Proof.
  induction l as [|b l IH]; [done|]. cbn [fmap list_fmap].
  fold (bit_char <$> l). fold (is_one <$> (bit_char <$> l)).
  rewrite IH. by destruct b.
Qed.

(** X10: on an assignment of bits to its qubits, the circuit that [encode]
    returns leaves the [L] value bits as they are and adds to the last bit,
    modulo 2, the number of positions where the code has a ['1'] and the
    input has a 1, the input being read as the circuit library writes a
    register: last bit first. *)
Theorem fragment_adds_overlap_parity (s : string) (vals : list bool)
    (acc : bool) :
  length vals = String.length s ->
  run_bits (data (fragment s)) (vals ++ [acc])
  = Some (vals ++ [xorb acc (Nat.odd (overlap s (bitstring_of vals)))]).
Proof.
  intros Hlen. rewrite EncodeFacts.fragment_eq. cbn [data].
  assert (Hchars : length (chars s) = String.length s)
    by apply EncodeFacts.length_chars.
  rewrite EncodeFacts.run_bits_oracle.
  - rewrite <- Hlen at 1 2.
    rewrite list_lookup_middle by done. cbn [from_option id].
    replace (length vals) with (length vals + 0)%nat at 1 by lia.
    rewrite insert_app_r. cbn [insert list_insert]. do 3 f_equal.
    unfold enumerate. rewrite parity_enumerate_from, drop_0.
    replace (reverse (chars s)) with (reverse (chars s) ++ [])
      by apply app_nil_r.
    rewrite common_parity_app by (rewrite length_reverse; lia).
    cbn [common_parity]. rewrite xorb_false_r.
    rewrite <- (reverse_involutive vals) at 1.
    rewrite common_parity_reverse by (rewrite length_reverse; lia).
    rewrite overlap_common_parity. unfold bitstring_of, chars.
    rewrite String.list_ascii_of_string_of_list_ascii.
    by rewrite is_one_bit_char.
  - intros c v Hin. apply EncodeFacts.enumerate_from_bounds in Hin.
    rewrite length_reverse, Hchars in Hin. lia.
  - rewrite length_app. simpl. lia.
Qed.

Lemma fragment_adds_overlap_parity_witness :
  length [true; false; true; true] = String.length "1010"
  /\ run_bits (data (fragment "1010")) ([true; false; true; true] ++ [false])
     = Some ([true; false; true; true]
             ++ [xorb false
                   (Nat.odd (overlap "1010"
                               (bitstring_of [true; false; true; true])))]).
Proof.
  split; [reflexivity|].
  apply (fragment_adds_overlap_parity "1010" [true; false; true; true] false).
  reflexivity.
Defined.

End FragmentFacts.

(** ** The hint of [QuantumEncoder.check] *)

Module HintFacts.

(** X11: for a guess as long as the code, the hint that [check] returns is
    [False] exactly when no position has a ['1'] in both; as soon as one
    position has, the hint is the list of lines that the shell command
    printed, whatever the number of such positions. *)
Theorem check_hint_false_iff (sh : string -> list string) (S G : string) :
  String.length G = String.length S ->
  exists hint,
    QuantumEncoder.check sh (encoder_of S) G = inr (hint, String.eqb S G)
    /\ (hint = PyBool false <-> overlap S G = 0%nat)
    /\ (overlap S G <> 0%nat -> hint = SList (sh "odd")).
Proof.
  intros Hlen.
  rewrite CheckFacts.check_spec, CheckFacts.one_past_end_le by lia.
  exists (hint_value sh S G). split; [done|]. unfold hint_value.
  destruct (decide (overlap S G = 0%nat)) as [Hov|Hov].
  - split; [done|]. intros Hne. by destruct Hne.
  - split; [|done]. split; [discriminate | done].
Qed.

Lemma check_hint_false_iff_witness :
  String.length "0110" = String.length "1010"
  /\ exists hint,
       QuantumEncoder.check sh_not_found (encoder_of "1010") "0110"
       = inr (hint, String.eqb "1010" "0110")
       /\ (hint = PyBool false <-> overlap "1010" "0110" = 0%nat)
       /\ (overlap "1010" "0110" <> 0%nat -> hint = SList (sh_not_found "odd")).
Proof.
  split; [reflexivity|].
  apply (check_hint_false_iff sh_not_found "1010" "0110"). reflexivity.
Defined.

End HintFacts.

(** ** [QuantumSetter.setCode] *)

Module QuantumSetterFacts.

Lemma measure_bit_length (bits : list bool) (l : list instr)
    (creg : list bool) :
  length (foldl (measure_bit bits) creg l) = length creg.
Proof.
  revert creg. induction l as [|i l IH]; intros creg; [done|].
  cbn [foldl]. rewrite IH. destruct i; cbn [measure_bit]; try done.
  apply length_insert.
Qed.

Lemma bit_chars_shape (l : list bool) :
  String.length (String.string_of_list_ascii (bit_char <$> l)) = length l
  /\ is_bitstring (String.string_of_list_ascii (bit_char <$> l)) = true.
Proof.
  induction l as [|b l [IHlen IHbits]]; [done|].
  cbn [fmap list_fmap String.string_of_list_ascii String.length is_bitstring length].
  fold (bit_char <$> l). rewrite IHlen, IHbits. by destruct b.
Qed.

(** Every key of a table has one character, 0 or 1, for each classical bit
    of the circuit. *)
Lemma readout_shape (qc : QuantumCircuit) (bits : list bool) :
  String.length (readout qc bits) = num_clbits qc
  /\ is_bitstring (readout qc bits) = true.
Proof.
  unfold readout, bitstring_of.
  destruct (bit_chars_shape
              (reverse (foldl (measure_bit bits)
                          (replicate (num_clbits qc) false) (data qc))))
    as [Hlen Hbits].
  split; [|done].
  by rewrite Hlen, length_reverse, measure_bit_length, length_replicate.
Qed.

Lemma total_shots_insert (m : Counts) (y : string) (n : Z) :
  m !! y = None -> total_shots (<[y := n]> m) = n + total_shots m.
Proof.
  intros Hy. unfold total_shots. apply map_fold_insert_L; [|done].
  intros. lia.
Qed.

Lemma total_shots_positive (m : Counts) :
  (forall y n, m !! y = Some n -> 0 < n) ->
  0 <= total_shots m /\ (m ≠ ∅ -> 0 < total_shots m).
Proof.
  induction m as [|y n m Hy IH] using map_ind; intros Hpos.
  - unfold total_shots. rewrite map_fold_empty. split; [lia | done].
  - rewrite total_shots_insert by done.
    assert (Hn : 0 < n) by (apply (Hpos y); by rewrite lookup_insert_eq).
    destruct IH as [IH _].
    { intros y' n' Hy'. apply (Hpos y'). rewrite lookup_insert_ne; [done|].
      intros ->. congruence. }
    split; [lia | intros _; lia].
Qed.

(** The table of an ideal run of one shot has one entry. *)
Lemma ideal_one_shot (qc : QuantumCircuit) (counts : Counts) :
  ideal_counts qc 1 counts ->
  exists y, counts = {[ y := 1 ]} /\ y ∈ outcomes qc.
Proof.
  intros [Hin Hsum].
  assert (Hne : counts ≠ ∅).
  { intros ->. unfold total_shots in Hsum. rewrite map_fold_empty in Hsum. lia. }
  destruct (map_choose counts Hne) as (y & n & Hy).
  destruct (Hin y n Hy) as [Hn Hout].
  rewrite <- (insert_delete_id counts y n Hy) in Hsum.
  rewrite total_shots_insert in Hsum by apply lookup_delete_eq.
  destruct (total_shots_positive (delete y counts)) as [Hge Hgt].
  { intros y' n' Hy'. apply lookup_delete_Some in Hy' as [_ Hy'].
    by apply (Hin y' n'). }
  assert (Hempty : delete y counts = ∅).
  { destruct (decide (delete y counts = ∅)) as [|Hd]; [done|].
    specialize (Hgt Hd). lia. }
  exists y. split; [|done].
  rewrite <- (insert_delete_id counts y n Hy), Hempty.
  rewrite Hempty in Hsum. unfold total_shots in Hsum.
  rewrite map_fold_empty in Hsum. by replace n with 1 by lia.
Qed.

(** X12: [setCode(length)] on a quantum code maker, for a length of 1 at
    least and a backend that answers the job as an ideal simulator may.
    One job is submitted.  When the table has a most frequent outcome, as
    the table of one shot always has, the code stored is that outcome, a
    string of [length] characters, each 0 or 1; nothing is read, and what
    was printed stays (the output is not cleared, as it is for a human code
    maker).  When it has none, [setCode] fails after the job and no code
    is stored. *)
Theorem QuantumSetter_setCode_bits (env : environment) (p : nat) (shots : Z)
    (n : Z) (w : world) (o : Codemaker.codemaker) (counts : Counts) :
  heap w !! p = Some (QuantumSetter shots, o) ->
  1 <= n ->
  env_execute env (jobs w) (random_program (Z.to_nat n)) shots = inr counts ->
  ideal_counts (random_program (Z.to_nat n)) shots counts ->
  (forall c,
     most_frequent counts = inr c ->
     setCode env p n w
     = (inr tt,
        {| stdin := stdin w; stdout := stdout w; jobs := S (jobs w);
           heap := <[p := (QuantumSetter shots, {| Codemaker.code := c |})]>
                     (heap w);
           global_p1 := global_p1 w |})
     /\ String.length c = Z.to_nat n
     /\ is_bitstring c = true)
  /\ (forall e,
       most_frequent counts = inl e ->
       setCode env p n w = (inl QiskitError, set_jobs w (S (jobs w))))
  /\ (shots = 1 -> exists c, most_frequent counts = inr c).
Proof.
  intros Hp Hn Hexec Hideal.
  assert (Hset : setCode env p n w
                 = match most_frequent counts with
                   | inl e => (inl e, set_jobs w (S (jobs w)))
                   | inr c =>
                       (inr tt,
                        {| stdin := stdin w; stdout := stdout w;
                           jobs := S (jobs w);
                           heap := <[p := (QuantumSetter shots,
                                           {| Codemaker.code := c |})]>
                                     (heap w);
                           global_p1 := global_p1 w |})
                   end).
  { unfold setCode, bind, deref. rewrite Hp. cbn [from_option id fst].
    unfold QuantumSetter_setCode. rewrite decide_False by lia.
    unfold bind, execute. rewrite Hexec. unfold lift.
    destruct (most_frequent counts) as [e|c]; [done|].
    unfold deref. cbn [set_jobs heap]. rewrite Hp. reflexivity. }
  rewrite Hset. split; [|split].
  - intros c Hc. rewrite Hc. split; [done|].
    apply CountsFacts.most_frequent_inv in Hc as (k & Hk & _).
    destruct Hideal as [Hin _]. apply Hin in Hk as [_ Hout].
    unfold outcomes in Hout.
    apply list_elem_of_fmap in Hout as (bits & -> & _).
    apply readout_shape.
  - intros e He. rewrite He.
    by rewrite (CountsFacts.most_frequent_error counts e He).
  - intros ->. destruct (ideal_one_shot _ _ Hideal) as (y & -> & _).
    exists y. apply (CountsFacts.most_frequent_unique _ y 1).
    + apply lookup_singleton_eq.
    + intros y' n' [<- <-]%lookup_singleton_Some Hne. by destruct Hne.
Qed.

Lemma QuantumSetter_setCode_bits_witness :
  heap quantum_setter_world !! 0%nat = Some (QuantumSetter 1, Codemaker.init)
  /\ 1 <= 2
  /\ env_execute sim_env (jobs quantum_setter_world)
       (random_program (Z.to_nat 2)) 1
     = inr {[ "00" := 1 ]}
  /\ ideal_counts (random_program (Z.to_nat 2)) 1 {[ "00" := 1 ]}
  /\ (forall c,
       most_frequent {[ "00" := 1 ]} = inr c ->
       setCode sim_env 0 2 quantum_setter_world
       = (inr tt,
          {| stdin := stdin quantum_setter_world;
             stdout := stdout quantum_setter_world;
             jobs := S (jobs quantum_setter_world);
             heap := <[0%nat := (QuantumSetter 1, {| Codemaker.code := c |})]>
                       (heap quantum_setter_world);
             global_p1 := global_p1 quantum_setter_world |})
       /\ String.length c = Z.to_nat 2
       /\ is_bitstring c = true)
  /\ (forall e,
       most_frequent {[ "00" := 1 ]} = inl e ->
       setCode sim_env 0 2 quantum_setter_world
       = (inl QiskitError,
          set_jobs quantum_setter_world (S (jobs quantum_setter_world))))
  /\ (1 = 1 -> exists c, most_frequent ({[ "00" := 1 ]} : Counts) = inr c).
Proof.
  assert (H1 : heap quantum_setter_world !! 0%nat
               = Some (QuantumSetter 1, Codemaker.init)) by reflexivity.
  assert (H2 : 1 <= 2) by lia.
  assert (H4 : env_execute sim_env (jobs quantum_setter_world)
                 (random_program (Z.to_nat 2)) 1
               = inr {[ "00" := 1 ]}) by (vm_compute; reflexivity).
  assert (H5 : ideal_counts (random_program (Z.to_nat 2)) 1 {[ "00" := 1 ]}).
  { split.
    - intros y k [<- <-]%lookup_singleton_Some. split; [lia|].
      assert (Hout : outcomes (random_program (Z.to_nat 2))
                     = ["00"; "10"; "01"; "11"]) by (vm_compute; reflexivity).
      rewrite Hout. left.
    - unfold total_shots. rewrite map_fold_singleton. lia. }
  split; [exact H1|]. split; [exact H2|]. split; [exact H4|].
  split; [exact H5|].
  exact (QuantumSetter_setCode_bits sim_env 0 1 2 quantum_setter_world
           Codemaker.init {[ "00" := 1 ]} H1 H2 H4 H5).
Defined.

End QuantumSetterFacts.


(** ** Edges of the human players *)

Module HumanEdgeFacts.

Lemma read_bits_short (k : nat) (acc : list string) (w : world) :
  (length (stdin w) < k)%nat ->
  read_bits k acc w = (inl EOFError, set_stdin w []).
Proof.
  revert acc w. induction k as [|k IH]; intros acc w Hlen; [lia|].
  cbn [read_bits]. unfold bind, input.
  destruct (stdin w) as [|l lines] eqn:Hin.
  - unfold set_stdin. rewrite <- Hin. by destruct w.
  - rewrite IH by (cbn [set_stdin stdin]; simpl in Hlen; lia).
    reflexivity.
Qed.

(** X14: when fewer lines than [length] are left to read, [setCode] on a
    human code maker fails at the end of the input, and the code maker
    keeps the code it had: the lines read so far are lost, no code is
    stored and the output is not cleared. *)
Theorem HumanSetter_setCode_short (env : environment) (p : nat) (n : Z)
    (w : world) (o : Codemaker.codemaker) :
  heap w !! p = Some (HumanSetter, o) ->
  (length (stdin w) < Z.to_nat n)%nat ->
  setCode env p n w = (inl EOFError, set_stdin w []).
Proof.
  intros Hp Hlen. unfold setCode, bind, deref. rewrite Hp.
  cbn [from_option id fst]. unfold HumanSetter_setCode, bind.
  by rewrite read_bits_short.
Qed.

Lemma HumanSetter_setCode_short_witness :
  heap (set_stdin one_setter_world ["1"; "0"]) !! 0%nat
  = Some (HumanSetter, Codemaker.init)
  /\ (length (stdin (set_stdin one_setter_world ["1"; "0"])) < Z.to_nat 3)%nat
  /\ setCode sim_env 0 3 (set_stdin one_setter_world ["1"; "0"])
     = (inl EOFError, set_stdin (set_stdin one_setter_world ["1"; "0"]) []).
Proof.
  assert (H1 : heap (set_stdin one_setter_world ["1"; "0"]) !! 0%nat
               = Some (HumanSetter, Codemaker.init)) by reflexivity.
  assert (H2 : (length (stdin (set_stdin one_setter_world ["1"; "0"]))
                < Z.to_nat 3)%nat) by (simpl; lia).
  split; [exact H1|]. split; [exact H2|].
  exact (HumanSetter_setCode_short sim_env 0 3
           (set_stdin one_setter_world ["1"; "0"]) Codemaker.init H1 H2).
Defined.

(** X15: a game between two humans for a code of length 0, or less: no
    line is read for the code, the empty code is stored and encoded, the
    first attempt is announced, and the human guesser then fails on its
    unbound [humanGuess] without reading a guess, whatever the bound on the
    rounds. *)
Theorem play_humans_no_code (env : environment) (fuel : nat) (self : Game)
    (w : world) (line : string) (n : Z) (rest : list string)
    (o : Codemaker.codemaker) :
  p2 self = HumanGuesser ->
  heap w !! p1 self = Some (HumanSetter, o) ->
  env_int env line = inr n ->
  n <= 0 ->
  stdin w = line :: rest ->
  play env fuel self w
  = Some (inl UnboundLocalError,
          {| stdin := rest; stdout := [attempt_line 1]; jobs := jobs w;
             heap := <[p1 self := (HumanSetter, {| Codemaker.code := "" |})]>
                       (heap w);
             global_p1 := global_p1 w |}).
Proof.
  intros Hp2 Hp Hint Hn Hin. unfold play.
  rewrite (PlayFacts.play_start_human_setter env self w line n [] rest o
             Hp Hin Hint) by (simpl; lia).
  rewrite Hp2. destruct rest; reflexivity.
Qed.

Lemma play_humans_no_code_witness :
  p2 other_p1_game = HumanGuesser
  /\ heap (set_stdin one_setter_world ["0"; "1"]) !! p1 other_p1_game
     = Some (HumanSetter, Codemaker.init)
  /\ env_int sim_env "0" = inr 0
  /\ 0 <= 0
  /\ stdin (set_stdin one_setter_world ["0"; "1"]) = "0" :: ["1"]
  /\ play sim_env 3 other_p1_game (set_stdin one_setter_world ["0"; "1"])
     = Some (inl UnboundLocalError,
             {| stdin := ["1"]; stdout := [attempt_line 1];
                jobs := jobs (set_stdin one_setter_world ["0"; "1"]);
                heap := <[p1 other_p1_game
                          := (HumanSetter, {| Codemaker.code := "" |})]>
                          (heap (set_stdin one_setter_world ["0"; "1"]));
                global_p1 :=
                  global_p1 (set_stdin one_setter_world ["0"; "1"]) |}).
Proof.
  assert (H1 : p2 other_p1_game = HumanGuesser) by reflexivity.
  assert (H2 : heap (set_stdin one_setter_world ["0"; "1"]) !! p1 other_p1_game
               = Some (HumanSetter, Codemaker.init)) by reflexivity.
  assert (H3 : env_int sim_env "0" = inr 0) by reflexivity.
  assert (H4 : 0 <= 0) by lia.
  assert (H5 : stdin (set_stdin one_setter_world ["0"; "1"]) = "0" :: ["1"])
    by reflexivity.
  split; [exact H1|]. split; [exact H2|]. split; [exact H3|].
  split; [exact H4|]. split; [exact H5|].
  exact (play_humans_no_code sim_env 3 other_p1_game
           (set_stdin one_setter_world ["0"; "1"]) "0" 0 ["1"] Codemaker.init
           H1 H2 H3 H4 H5).
Defined.

End HumanEdgeFacts.
